(** * DirectedGraph: a shallow embedding of [directed_graph/DirectedGraph.cpp]

    The C++ class keeps three members: a [size_t] counter, an
    [unordered_map<const Vertex*, unique_ptr<Vertex>>] that owns the vertices,
    and an [unordered_map<const Vertex*, unordered_set<Vertex*>>] with the
    outgoing edges.  Both maps are keyed by the *address* of a vertex, so the
    embedding keeps addresses: a handle is a pointer, the vertices live in a
    free store, and the allocator's choice of address is an input of
    [addVertex].  Methods that are not [const] return the new graph next to
    their result; [assert] aborts, dereferencing an address where no vertex of
    the graph lives has no defined result: both are [None]. *)

From stdpp Require Import base numbers option gmap sets list strings sorting pretty.

#[local] Set Warnings "-clear-no-such-hyp".
Local Open Scope N_scope.

(** ** Machine types *)

(** An address.  [Vertex*], [const Vertex*] and [Vertex&] all carry one. *)
Abbreviation ptr := N.

(** [size_t] is 64 bits wide (LP64); [++] on it wraps around. *)
Definition SIZE_BITS : N := 64.
Definition size_wrap (n : N) : N := n mod 2 ^ SIZE_BITS.

(** The line feed of the C++ literals. *)
Definition nl : string := String (Ascii.Ascii false true false true false false false false) EmptyString.

(** ** class Vertex *)

(** [m_id] is a [size_t], [m_data] an [int]; the code does no arithmetic on
    the payload. *)
Record Vertex := mkVertex { m_id : N; m_data : Z }.

Definition Vertex_getID (v : Vertex) : N := m_id v.
Definition Vertex_getData (v : Vertex) : Z := m_data v.
Definition Vertex_setData (data : Z) (v : Vertex) : Vertex :=
  {| m_id := m_id v; m_data := data |}.

(** ["v" + std::to_string(m_id)] *)
Definition Vertex_toString (v : Vertex) : string := ("v" +:+ pretty (m_id v))%string.

(** [operator==] *)
Definition Vertex_eqb (this that : Vertex) : bool :=
  bool_decide (Vertex_getID this = Vertex_getID that).

(** ** class DirectedGraph *)

(** [heap] is the part of the free store that the graph owns through the
    [unique_ptr]s of [m_vertices]; a [unique_ptr<Vertex>] itself is the
    address it holds ([get()]). *)
Record DirectedGraph := mkGraph {
  heap : gmap ptr Vertex;
  m_vertexCounter : N;
  m_vertices : gmap ptr ptr;
  m_edges : gmap ptr (gset ptr)
}.

(** Assignment to the member [m_edges]. *)
Definition set_edges (g : DirectedGraph) (edges : gmap ptr (gset ptr)) : DirectedGraph :=
  {| heap := heap g; m_vertexCounter := m_vertexCounter g;
     m_vertices := m_vertices g; m_edges := edges |}.

(** [DirectedGraph::DirectedGraph()] *)
Definition DirectedGraph_new : DirectedGraph :=
  {| heap := ∅; m_vertexCounter := 0; m_vertices := ∅; m_edges := ∅ |}.

(** [m.find(k) != m.end()] *)
Definition contains {A} (k : ptr) (m : gmap ptr A) : bool := bool_decide (is_Some (m !! k)).

(** [m_edges[k]]: a reference to the mapped set, default-constructing an
    empty set under [k] first when the key is missing. *)
Definition subscript (k : ptr) (m : gmap ptr (gset ptr)) : gset ptr * gmap ptr (gset ptr) :=
  match m !! k with
  | Some s => (s, m)
  | None => (∅, <[k := ∅]> m)
  end.

(** [addVertex].  [p] is the address [std::make_unique<Vertex>] returns; the
    allocator never hands out an address that is still live ([alloc_ok]
    below).  [emplace] inserts only under a key that is not there yet;
    otherwise the node it built is dropped again, and with it the
    [unique_ptr] and the vertex. *)
Definition addVertex (p : ptr) (data : Z) (g : DirectedGraph) : ptr * DirectedGraph :=
  let vertex := mkVertex (m_vertexCounter g) data in
  let counter := size_wrap (m_vertexCounter g + 1) in
  let rawPointer := p in
  if contains rawPointer (m_vertices g)
  then (rawPointer,
        {| heap := delete p (heap g); m_vertexCounter := counter;
           m_vertices := m_vertices g; m_edges := m_edges g |})
  else (rawPointer,
        {| heap := <[p := vertex]> (heap g); m_vertexCounter := counter;
           m_vertices := <[rawPointer := p]> (m_vertices g); m_edges := m_edges g |}).

(** [addEdge], with the two [assert]s compiled in; [None] is a failed
    [assert]. *)
Definition addEdge (u v : ptr) (g : DirectedGraph) : option (bool * DirectedGraph) :=
  if negb (contains u (m_vertices g)) then None
  else if negb (contains v (m_vertices g)) then None
  else
    let '(uSuccessors, edges) := subscript u (m_edges g) in
    if decide (v ∈ uSuccessors) then Some (false, set_edges g edges)
    else Some (true, set_edges g (<[u := {[v]} ∪ uSuccessors]> edges)).

(** [removeVertex].  Erasing the entry of [m_vertices] destroys its
    [unique_ptr], which deletes the vertex it holds. *)
Definition removeVertex (u : ptr) (g : DirectedGraph) : bool * DirectedGraph :=
  match m_vertices g !! u with
  | Some owned =>
      (true,
       {| heap := delete owned (heap g);
          m_vertexCounter := m_vertexCounter g;
          m_vertices := delete u (m_vertices g);
          m_edges := (λ successors : gset ptr,
                        if decide (u ∈ successors) then successors ∖ {[u]} else successors)
                     <$> delete u (m_edges g) |})
  | None => (false, g)
  end.

(** [removeEdge] *)
Definition removeEdge (u v : ptr) (g : DirectedGraph) : bool * DirectedGraph :=
  if contains u (m_vertices g) && contains v (m_vertices g) then
    let '(uSuccessors, edges) := subscript u (m_edges g) in
    if decide (v ∈ uSuccessors)
    then (true, set_edges g (<[u := uSuccessors ∖ {[v]}]> edges))
    else (false, set_edges g edges)
  else (false, g).

(** [getVertices()]: [kvPair.second.get()] of every entry, in the iteration
    order of the map. *)
Definition getVertices (g : DirectedGraph) : list ptr * DirectedGraph :=
  ((map_to_list (m_vertices g)).*2, g).

(** [getVertices() const]: [kvPair.first] of every entry. *)
Definition getVertices_const (g : DirectedGraph) : list ptr :=
  (map_to_list (m_vertices g)).*1.

(** [getSuccessors(u)] *)
Definition getSuccessors (u : ptr) (g : DirectedGraph) : list ptr * DirectedGraph :=
  let '(uSuccessors, edges) := subscript u (m_edges g) in
  (elements uSuccessors, set_edges g edges).

(** [getSuccessors(u) const] *)
Definition getSuccessors_const (u : ptr) (g : DirectedGraph) : list ptr :=
  if contains u (m_edges g)
  then elements (default ∅ (m_edges g !! u))
  else [].

(** The id read through a pointer, [p->getID()]. *)
Definition id_at (h : gmap ptr Vertex) (p : ptr) : N :=
  from_option Vertex_getID 0 (h !! p).

(** The comparator of [toSortedVertices]:
    [lhs->getID() < rhs->getID()]. *)
Definition id_less (h : gmap ptr Vertex) (lhs rhs : ptr) : Prop := id_at h lhs < id_at h rhs.

(** What [std::sort] is asked to produce: [y] is never placed before [x]
    when [id_less x y]. *)
Definition id_order (h : gmap ptr Vertex) (x y : ptr) : Prop := ¬ id_less h y x.

Global Instance id_order_dec h x y : Decision (id_order h x y).
Proof. unfold id_order, id_less. apply _. Defined.

(** [toSortedVertices]: copy the range and sort it by id.  Every pointer of
    the range is dereferenced, here or by the caller right after, so a range
    with a pointer to no vertex has no result. *)
Definition toSortedVertices (h : gmap ptr Vertex) (vs : list ptr) : option (list ptr) :=
  if decide (Forall (λ p, is_Some (h !! p)) vs)
  then Some (merge_sort (id_order h) vs)
  else None.

(** A range-based [for] loop that appends to the string [s]. *)
Fixpoint for_each {A} (body : string → A → option string) (s : string) (l : list A)
  : option string :=
  match l with
  | [] => Some s
  | x :: l => s' ← body s x; for_each body s' l
  end.

(** The body of the first loop of [toString]:
    [s += "    " + v->toString() + "\n"]. *)
Definition print_vertex (h : gmap ptr Vertex) (s : string) (v : ptr) : option string :=
  vx ← h !! v;
  Some (s +:+ ("    " +:+ Vertex_toString vx +:+ nl))%string.

(** The body of the innermost loop:
    [s += "    " + u->toString() + " -> " + v->toString() + "\n"]. *)
Definition print_edge (h : gmap ptr Vertex) (u : ptr) (s : string) (v : ptr) : option string :=
  ux ← h !! u;
  vx ← h !! v;
  Some (s +:+ ("    " +:+ Vertex_toString ux +:+ " -> " +:+ Vertex_toString vx +:+ nl))%string.

(** The body of the second loop: the edges out of [u], successors sorted. *)
Definition print_edges_of (g : DirectedGraph) (s : string) (u : ptr) : option string :=
  if contains u (m_edges g) then
    let uSuccessors := default ∅ (m_edges g !! u) in
    uSuccessorsSorted ← toSortedVertices (heap g) (elements uSuccessors);
    for_each (print_edge (heap g) u) s uSuccessorsSorted
  else Some s.

(** [toString] *)
Definition toString (g : DirectedGraph) : option string :=
  let s := ("DirectedGraph:" +:+ nl)%string in
  let s := (s +:+ "  vertices:" +:+ nl)%string in
  let vertices := getVertices_const g in
  sortedVertices ← toSortedVertices (heap g) vertices;
  s ← for_each (print_vertex (heap g)) s sortedVertices;
  let s := (s +:+ "  edges:" +:+ nl)%string in
  for_each (print_edges_of g) s sortedVertices.

(** ** The public interface as data

    A client drives the graph through its public methods, and may write the
    payload of a vertex through a [Vertex*] it got from the graph
    ([Vertex::setData]).  [OpAddVertex] carries the address the allocator
    returned for that call. *)
Inductive Op : Type :=
  | OpAddVertex (p : ptr) (data : Z)
  | OpAddEdge (u v : ptr)
  | OpRemoveVertex (u : ptr)
  | OpRemoveEdge (u v : ptr)
  | OpGetVertices
  | OpGetVerticesConst
  | OpGetSuccessors (u : ptr)
  | OpGetSuccessorsConst (u : ptr)
  | OpToString
  | OpSetData (u : ptr) (data : Z).

(** The allocator's contract: a new object never overlaps a live one. *)
Definition alloc_ok (op : Op) (g : DirectedGraph) : Prop :=
  match op with
  | OpAddVertex p _ => heap g !! p = None
  | _ => True
  end.

Global Instance alloc_ok_dec op g : Decision (alloc_ok op g).
Proof. destruct op; simpl; apply _. Defined.

(** The graph after one call; [None] when the call does not return.
    [OpSetData u data] is [u->setData(data)] on a vertex of the graph. *)
Definition exec (op : Op) (g : DirectedGraph) : option DirectedGraph :=
  match op with
  | OpAddVertex p data => Some (addVertex p data g).2
  | OpAddEdge u v => snd <$> addEdge u v g
  | OpRemoveVertex u => Some (removeVertex u g).2
  | OpRemoveEdge u v => Some (removeEdge u v g).2
  | OpGetVertices => Some (getVertices g).2
  | OpGetVerticesConst => Some g
  | OpGetSuccessors u => Some (getSuccessors u g).2
  | OpGetSuccessorsConst u => Some g
  | OpToString => _ ← toString g; Some g
  | OpSetData u data =>
      vx ← heap g !! u;
      Some {| heap := <[u := Vertex_setData data vx]> (heap g);
              m_vertexCounter := m_vertexCounter g;
              m_vertices := m_vertices g; m_edges := m_edges g |}
  end.

Definition step (op : Op) (g : DirectedGraph) : option DirectedGraph :=
  if decide (alloc_ok op g) then exec op g else None.

Fixpoint run (ops : list Op) (g : DirectedGraph) : option DirectedGraph :=
  match ops with
  | [] => Some g
  | op :: ops => g' ← step op g; run ops g'
  end.

(** The states a client can bring a graph into. *)
Definition reachable (g : DirectedGraph) : Prop :=
  ∃ ops, run ops DirectedGraph_new = Some g.

(** ** Observations *)

(** [u] is a vertex of the graph. *)
Definition owns (g : DirectedGraph) (u : ptr) : Prop := is_Some (m_vertices g !! u).

(** The successor set of [u]; a missing entry holds no edge. *)
Definition successors (g : DirectedGraph) (u : ptr) : gset ptr := default ∅ (m_edges g !! u).

(** The edge [u -> v] exists. *)
Definition has_edge (g : DirectedGraph) (u v : ptr) : Prop := v ∈ successors g u.

Global Instance has_edge_dec g u v : Decision (has_edge g u v).
Proof. unfold has_edge. apply _. Defined.

Global Instance owns_dec g u : Decision (owns g u).
Proof. unfold owns. apply _. Defined.

(** Two graphs a client cannot tell apart: the same vertices with the same
    ids and payloads, the same counter, the same edges. *)
Definition same_graph (g g' : DirectedGraph) : Prop :=
  heap g' = heap g ∧ m_vertexCounter g' = m_vertexCounter g ∧
  m_vertices g' = m_vertices g ∧ ∀ w, successors g' w = successors g w.

(** ** Invariants *)

(** Every key of [m_vertices] is the address its [unique_ptr] holds, and the
    owned vertices are exactly the live ones. *)
Definition store_ok (g : DirectedGraph) : Prop :=
  map_Forall (λ k owned, owned = k) (m_vertices g) ∧ dom (heap g) = dom (m_vertices g).

(** The adjacency invariant: the members of every successor set are vertices
    of the graph, and so is every key whose set is not empty. *)
Definition edges_closed (g : DirectedGraph) : Prop :=
  map_Forall (λ u s, (s ≠ ∅ → u ∈ dom (m_vertices g)) ∧ s ⊆ dom (m_vertices g)) (m_edges g).

(** The stricter reading, without the allowance for empty entries. *)
Definition edges_closed_strict (g : DirectedGraph) : Prop :=
  map_Forall (λ u s, u ∈ dom (m_vertices g) ∧ s ⊆ dom (m_vertices g)) (m_edges g).

(** Distinct vertices of the graph carry distinct ids. *)
Definition ids_unique (g : DirectedGraph) : Prop :=
  NoDup (id_at (heap g) <$> getVertices_const g).

(** ** The rendering the specification describes

    The specification words [toString] over ids: the vertices sorted by id,
    one line each, then for every vertex in that order one line per outgoing
    edge, successors sorted by id.  [spec_toString] is that description, a
    function of the set of vertex ids and the set of directed id pairs. *)

Definition flatten (lines : list string) : string := foldr String.append EmptyString lines.

(** ["    v<id>\n"] *)
Definition vertex_line (id : N) : string :=
  ("    " +:+ ("v" +:+ pretty id) +:+ nl)%string.

(** ["    v<id> -> v<id>\n"] *)
Definition edge_line (u v : N) : string :=
  ("    " +:+ ("v" +:+ pretty u) +:+ " -> " +:+ ("v" +:+ pretty v) +:+ nl)%string.

Definition spec_successors (E : gset (N * N)) (u : N) : gset N :=
  set_map snd (filter (λ e, e.1 = u) E).

Definition spec_toString (V : gset N) (E : gset (N * N)) : string :=
  let sorted := merge_sort N.le (elements V) in
  ("DirectedGraph:" +:+ nl +:+ "  vertices:" +:+ nl
   +:+ flatten (vertex_line <$> sorted)
   +:+ "  edges:" +:+ nl
   +:+ flatten ((λ u, flatten (edge_line u <$> merge_sort N.le (elements (spec_successors E u))))
                <$> sorted))%string.

(** The text [toString] builds when the sorted vertices come out in the
    order [vs] and the sorted successors of [u] in the order [succs u]. *)
Definition layout (g : DirectedGraph) (vs : list ptr) (succs : ptr → list ptr) : string :=
  ("DirectedGraph:" +:+ nl +:+ "  vertices:" +:+ nl
   +:+ flatten ((λ p, vertex_line (id_at (heap g) p)) <$> vs)
   +:+ "  edges:" +:+ nl
   +:+ flatten ((λ u, flatten ((λ v, edge_line (id_at (heap g) u) (id_at (heap g) v))
                               <$> succs u)) <$> vs))%string.

(** The lines [toString] prints for the edges out of [u]. *)
Definition edge_lines_of (g : DirectedGraph) (u : ptr) : string :=
  flatten ((λ v, edge_line (id_at (heap g) u) (id_at (heap g) v))
           <$> merge_sort (id_order (heap g)) (elements (successors g u))).

(** The ids of the vertices of a graph, and its edges as pairs of ids. *)
Definition vertex_ids (g : DirectedGraph) : gset N :=
  set_map (id_at (heap g)) (dom (m_vertices g)).

Definition edge_pairs (g : DirectedGraph) : gset (N * N) :=
  set_bind (λ u, set_map (λ v, (id_at (heap g) u, id_at (heap g) v)) (successors g u))
           (dom (m_edges g)).

(** The calls that only ask. *)
Definition is_query (op : Op) : bool :=
  match op with
  | OpGetVertices | OpGetVerticesConst | OpGetSuccessors _ | OpGetSuccessorsConst _
  | OpToString => true
  | _ => false
  end.

(** ** The ids that addVertex hands out *)

(** The number of [addVertex] calls of a trace. *)
Fixpoint adds (ops : list Op) : nat :=
  match ops with
  | [] => 0%nat
  | OpAddVertex _ _ :: ops => S (adds ops)
  | _ :: ops => adds ops
  end.

(** The ids read through the handles that the [addVertex] calls of a trace
    return, [graph.addVertex(data)->getID()], in call order; the trace ends at
    the first call that does not return. *)
Fixpoint minted (ops : list Op) (g : DirectedGraph) : list N :=
  match ops with
  | [] => []
  | op :: ops =>
      match step op g with
      | None => []
      | Some g' =>
          match op with
          | OpAddVertex p data => id_at (heap g') (addVertex p data g).1 :: minted ops g'
          | _ => minted ops g'
          end
      end
  end.

(** Add a vertex and remove it again. *)
Definition churn (p : ptr) : list Op := [OpAddVertex p 0; OpRemoveVertex p].

(** As many rounds of [churn] as [size_t] has values, then one more
    [addVertex]. *)
Definition wrap_trace : list Op :=
  mjoin (replicate (N.to_nat (2 ^ SIZE_BITS)) (churn 1)) ++ [OpAddVertex 1 0].

(** The graph [g] with its counter at [c]. *)
Definition set_counter (c : N) (g : DirectedGraph) : DirectedGraph :=
  {| heap := heap g; m_vertexCounter := c;
     m_vertices := m_vertices g; m_edges := m_edges g |}.

(** Two graphs after a wrap of the counter.  A first vertex is added at
    address 1, then [n] rounds of [churn], then vertices at 2, 3 and 4; the
    vertices at 1 and 2 get an edge each.  With [n = 2 ^ 64 - 1] the counter
    is back at 0 for the vertex at 2. *)
Definition twin_vertices (n : nat) : list Op :=
  [OpAddVertex 1 0] ++ mjoin (replicate n (churn 9))
  ++ [OpAddVertex 2 0; OpAddVertex 3 0; OpAddVertex 4 0].

Definition twin_trace_a : list Op :=
  twin_vertices (N.to_nat (2 ^ SIZE_BITS - 1)) ++ [OpAddEdge 1 3; OpAddEdge 2 4].

Definition twin_trace_b : list Op :=
  twin_vertices (N.to_nat (2 ^ SIZE_BITS - 1)) ++ [OpAddEdge 1 4; OpAddEdge 2 3].

Definition twin_vertices_graph : DirectedGraph :=
  {| heap := <[4 := mkVertex 2 0]> (<[3 := mkVertex 1 0]>
               (<[2 := mkVertex 0 0]> (<[1 := mkVertex 0 0]> ∅)));
     m_vertexCounter := 3;
     m_vertices := <[4 := 4]> (<[3 := 3]> (<[2 := 2]> (<[1 := 1]> ∅)));
     m_edges := ∅ |}.

Definition twin_graph_a : DirectedGraph :=
  set_edges twin_vertices_graph (<[2 := {[4]}]> (<[1 := {[3]}]> ∅)).

Definition twin_graph_b : DirectedGraph :=
  set_edges twin_vertices_graph (<[2 := {[3]}]> (<[1 := {[4]}]> ∅)).

(** The ids in the store are below [k], and no two live vertices share one. *)
Definition ids_below (k : N) (g : DirectedGraph) : Prop :=
  ∀ p vx, heap g !! p = Some vx → m_id vx < k.

Definition heap_ids_inj (g : DirectedGraph) : Prop :=
  ∀ p q vx vy, heap g !! p = Some vx → heap g !! q = Some vy → m_id vx = m_id vy → p = q.

(** The state of the graph after [k] calls of [addVertex], none of which
    made the counter wrap. *)
Definition minted_so_far (k : nat) (g : DirectedGraph) : Prop :=
  store_ok g ∧ m_vertexCounter g = size_wrap (N.of_nat k) ∧
  ids_below (N.of_nat k) g ∧ heap_ids_inj g.

(** ** The test of main.cpp *)

(** [test_DirectedGraph_setup], with the loop over [i = 0 .. 3] written
    out.  [p0 .. p3] are the addresses the allocator returns for the four
    vertices.  The test drops the answers of [addEdge]; they are kept here,
    next to the final graph and the string [result]. *)
Definition test_DirectedGraph_setup (p0 p1 p2 p3 : ptr)
  : option (list bool * DirectedGraph * string) :=
  let graph := DirectedGraph_new in
  let '(v0, graph) := addVertex p0 0 graph in
  let '(v1, graph) := addVertex p1 1 graph in
  let '(v2, graph) := addVertex p2 2 graph in
  let '(v3, graph) := addVertex p3 3 graph in
  '(e1, graph) ← addEdge v0 v0 graph;
  '(e2, graph) ← addEdge v0 v1 graph;
  '(e3, graph) ← addEdge v0 v3 graph;
  '(e4, graph) ← addEdge v2 v3 graph;
  '(e5, graph) ← addEdge v2 v3 graph;
  result ← toString graph;
  Some ([e1; e2; e3; e4; e5], graph, result).

(** The string [expected] of the test. *)
Definition expected : string :=
  ("DirectedGraph:" +:+ nl
   +:+ "  vertices:" +:+ nl
   +:+ "    v0" +:+ nl
   +:+ "    v1" +:+ nl
   +:+ "    v2" +:+ nl
   +:+ "    v3" +:+ nl
   +:+ "  edges:" +:+ nl
   +:+ "    v0 -> v0" +:+ nl
   +:+ "    v0 -> v1" +:+ nl
   +:+ "    v0 -> v3" +:+ nl
   +:+ "    v2 -> v3" +:+ nl)%string.

(** The graph of the test after its four [addVertex] calls. *)
Definition four_vertices (p0 p1 p2 p3 : ptr) : DirectedGraph :=
  {| heap := <[p3 := mkVertex 3 3]> (<[p2 := mkVertex 2 2]>
               (<[p1 := mkVertex 1 1]> (<[p0 := mkVertex 0 0]> ∅)));
     m_vertexCounter := 4;
     m_vertices := <[p3 := p3]> (<[p2 := p2]> (<[p1 := p1]> (<[p0 := p0]> ∅)));
     m_edges := ∅ |}.

(** ** Two small graphs

    The graph of the test at concrete addresses, and the same vertices and
    edges built at other addresses, the edges in another order and with an
    edge that is added and removed again. *)
Definition demo_ops : list Op :=
  [OpAddVertex 100 0; OpAddVertex 50 1; OpAddVertex 70 2; OpAddVertex 10 3;
   OpAddEdge 100 100; OpAddEdge 100 50; OpAddEdge 100 10; OpAddEdge 70 10].

Definition demo_ops_reordered : list Op :=
  [OpAddVertex 7 10; OpAddVertex 8 11; OpAddVertex 9 12; OpAddVertex 6 13;
   OpAddEdge 9 6; OpAddEdge 8 9; OpAddEdge 7 6; OpAddEdge 7 8;
   OpRemoveEdge 8 9; OpAddEdge 7 7].

Definition demo_graph : DirectedGraph :=
  default DirectedGraph_new (run demo_ops DirectedGraph_new).

Definition demo_graph_reordered : DirectedGraph :=
  default DirectedGraph_new (run demo_ops_reordered DirectedGraph_new).

(** A trace that removes a vertex and lets the allocator hand out its
    address again. *)
Definition demo_trace : list Op :=
  demo_ops ++ [OpRemoveVertex 50; OpAddVertex 50 4; OpGetSuccessors 10;
               OpRemoveEdge 100 10; OpSetData 50 7; OpAddVertex 51 5; OpToString].

(** ** Reading a rendering

    Every character of a text satisfies [P]. *)
Fixpoint all_chars (P : Ascii.ascii → Prop) (s : string) : Prop :=
  match s with
  | EmptyString => True
  | String c s => P c ∧ all_chars P s
  end.

(** The line feed as a character. *)
Definition nl_char : Ascii.ascii :=
  Ascii.Ascii false true false true false false false false.

(** The decimal digits, the characters [std::to_string] produces for a
    [size_t]. *)
Definition is_digit (c : Ascii.ascii) : Prop :=
  (48 ≤ Ascii.N_of_ascii c ≤ 57)%N.

(** The id pairs [toString] prints, in the order it prints them. *)
Definition printed_pairs (V : gset N) (E : gset (N * N)) : list (N * N) :=
  u ← merge_sort N.le (elements V);
  (λ v, (u, v)) <$> merge_sort N.le (elements (spec_successors E u)).

(** * Proofs *)

(** ** The containers *)

Lemma contains_true {A} (k : ptr) (m : gmap ptr A) : contains k m = true ↔ is_Some (m !! k).
Proof. unfold contains. apply bool_decide_eq_true. Qed.

Lemma contains_false {A} (k : ptr) (m : gmap ptr A) : contains k m = false ↔ m !! k = None.
Proof. unfold contains. rewrite bool_decide_eq_false, eq_None_not_Some. done. Qed.

Lemma subscript_fst k m : (subscript k m).1 = default ∅ (m !! k).
Proof. unfold subscript. by destruct (m !! k). Qed.

Lemma subscript_snd_lookup k m w :
  (subscript k m).2 !! w = if decide (k = w) then Some (default ∅ (m !! k)) else m !! w.
Proof.
  unfold subscript. destruct (m !! k) as [s|] eqn:Hk; simpl; case_decide; subst;
    by simplify_map_eq.
Qed.

Lemma subscript_snd_default k m w :
  default ∅ ((subscript k m).2 !! w) = default ∅ (m !! w).
Proof. rewrite subscript_snd_lookup. case_decide; by subst. Qed.

Lemma subscript_present k m s : m !! k = Some s → subscript k m = (s, m).
Proof. unfold subscript. by intros ->. Qed.

Lemma set_edges_id g : set_edges g (m_edges g) = g.
Proof. by destruct g. Qed.

Lemma has_edge_lookup g u v : has_edge g u v ↔ ∃ s, m_edges g !! u = Some s ∧ v ∈ s.
Proof.
  unfold has_edge, successors. destruct (m_edges g !! u) as [s|]; simpl.
  - naive_solver.
  - split; [set_solver | naive_solver].
Qed.

Lemma successors_set_edges g m w : successors (set_edges g m) w = default ∅ (m !! w).
Proof. done. Qed.

Lemma successors_insert g u s m w :
  successors (set_edges g (<[u := s]> m)) w = if decide (u = w) then s else default ∅ (m !! w).
Proof. rewrite successors_set_edges. case_decide; by simplify_map_eq. Qed.

Lemma successors_subscript g u w :
  successors (set_edges g (subscript u (m_edges g)).2) w = successors g w.
Proof. rewrite successors_set_edges. apply subscript_snd_default. Qed.

(** ** addEdge *)

Lemma addEdge_defined g u v :
  owns g u → owns g v →
  addEdge u v g =
    if decide (has_edge g u v) then Some (false, set_edges g (subscript u (m_edges g)).2)
    else Some (true, set_edges g (<[u := {[v]} ∪ successors g u]> (subscript u (m_edges g)).2)).
Proof.
  intros Hu Hv. unfold addEdge.
  apply contains_true in Hu as ->. apply contains_true in Hv as ->. simpl.
  destruct (subscript u (m_edges g)) as [uSuccessors edges] eqn:Hsub.
  assert (uSuccessors = successors g u) as ->.
  { unfold successors. rewrite <- subscript_fst. by rewrite Hsub. }
  unfold has_edge. by repeat case_decide.
Qed.

Lemma addEdge_aborts g u v : ¬ (owns g u ∧ owns g v) → addEdge u v g = None.
Proof.
  intros Hn. unfold addEdge.
  destruct (contains u (m_vertices g)) eqn:Hu; [|done].
  destruct (contains v (m_vertices g)) eqn:Hv; [|done].
  apply contains_true in Hu. apply contains_true in Hv. by destruct Hn.
Qed.

(** C4: on vertices of the graph, [addEdge(u, v)] answers [false] and leaves
    the graph as it is when the edge [u -> v] exists; otherwise it answers
    [true], and the edges afterwards are the old ones and [u -> v], with the
    vertices untouched.  Calling it a second time answers [false] and returns
    the very state the first call produced. *)
Theorem addEdge_idempotent (g : DirectedGraph) (u v : ptr) :
  owns g u → owns g v →
  (has_edge g u v → addEdge u v g = Some (false, g)) ∧
  (¬ has_edge g u v →
     ∃ g', addEdge u v g = Some (true, g') ∧
           heap g' = heap g ∧ m_vertexCounter g' = m_vertexCounter g ∧
           m_vertices g' = m_vertices g ∧
           ∀ a b, has_edge g' a b ↔ has_edge g a b ∨ (a = u ∧ b = v)) ∧
  (∃ b g1, addEdge u v g = Some (b, g1) ∧ addEdge u v g1 = Some (false, g1)).
Proof.
  intros Hu Hv.
  assert (has_edge g u v → addEdge u v g = Some (false, g)) as Hdup.
  { intros He. rewrite addEdge_defined by done. rewrite decide_True by done.
    apply has_edge_lookup in He as (s & Hs & _).
    rewrite (subscript_present _ _ _ Hs). simpl. by rewrite set_edges_id. }
  assert (¬ has_edge g u v →
     ∃ g', addEdge u v g = Some (true, g') ∧
           heap g' = heap g ∧ m_vertexCounter g' = m_vertexCounter g ∧
           m_vertices g' = m_vertices g ∧
           ∀ a b, has_edge g' a b ↔ has_edge g a b ∨ (a = u ∧ b = v)) as Hnew.
  { intros He. rewrite addEdge_defined by done. rewrite decide_False by done.
    eexists. split; [done|]. repeat split; try done.
    - unfold has_edge. rewrite successors_insert, subscript_snd_default.
      fold (successors g a). case_decide; set_solver.
    - unfold has_edge. rewrite successors_insert, subscript_snd_default.
      fold (successors g a). case_decide; set_solver. }
  split; [done|]. split; [done|].
  destruct (decide (has_edge g u v)) as [He|He].
  - exists false, g. rewrite Hdup by done. done.
  - destruct (Hnew He) as (g' & Hg' & Hh & Hc & Hvs & Hedges).
    exists true, g'. split; [done|].
    assert (owns g' u) as Hu' by (unfold owns; by rewrite Hvs).
    assert (owns g' v) as Hv' by (unfold owns; by rewrite Hvs).
    assert (has_edge g' u v) as He' by (apply Hedges; by right).
    rewrite addEdge_defined by done. rewrite decide_True by done.
    apply has_edge_lookup in He' as (s & Hs & _).
    rewrite (subscript_present _ _ _ Hs). simpl. by rewrite set_edges_id.
Qed.

(** ** The adjacency invariant *)

Lemma edges_closed_alt g :
  edges_closed g ↔
  ∀ u s, m_edges g !! u = Some s → (s ≠ ∅ → owns g u) ∧ ∀ v, v ∈ s → owns g v.
Proof.
  unfold edges_closed, owns. split.
  - intros H u s Hs. destruct (H u s Hs) as [H1 H2]. split.
    + intros Hne. by apply elem_of_dom, H1.
    + intros v Hv. by apply elem_of_dom, H2.
  - intros H u s Hs. destruct (H u s Hs) as [H1 H2]. split.
    + intros Hne. by apply elem_of_dom, H1.
    + intros v Hv. by apply elem_of_dom, H2.
Qed.

(** Read an invariant hypothesis pointwise. *)
Ltac open_closed H :=
  let H' := fresh in
  pose proof (proj1 (edges_closed_alt _) H) as H'; clear H; rename H' into H.

Lemma edges_closed_new : edges_closed DirectedGraph_new.
Proof. apply map_Forall_empty. Qed.

Lemma edges_closed_subscript g u :
  edges_closed g → edges_closed (set_edges g (subscript u (m_edges g)).2).
Proof.
  rewrite !edges_closed_alt. intros H w s. simpl.
  rewrite subscript_snd_lookup. case_decide as Hw; [subst w|by apply H].
  intros [= <-]. destruct (m_edges g !! u) as [s|] eqn:Hs; simpl.
  - by apply (H u).
  - split; [done|set_solver].
Qed.

Lemma edges_closed_addVertex g p data :
  edges_closed g → edges_closed (addVertex p data g).2.
Proof.
  rewrite !edges_closed_alt. intros H w s. unfold addVertex, owns.
  destruct (contains p (m_vertices g)); simpl; [by apply H|].
  intros Hs. destruct (H w s Hs) as [H1 H2]. split.
  - intros Hne. specialize (H1 Hne). unfold owns in H1.
    destruct (decide (p = w)); by simplify_map_eq.
  - intros v Hv. specialize (H2 v Hv). unfold owns in H2.
    destruct (decide (p = v)); by simplify_map_eq.
Qed.

Lemma edges_closed_addEdge g u v b g' :
  edges_closed g → addEdge u v g = Some (b, g') → edges_closed g'.
Proof.
  intros Hinv Hadd.
  destruct (decide (owns g u ∧ owns g v)) as [[Hu Hv]|Hn];
    [|by rewrite addEdge_aborts in Hadd].
  rewrite addEdge_defined in Hadd by done.
  pose proof (edges_closed_subscript g u Hinv) as Hsub.
  case_decide; simplify_eq; [done|].
  apply edges_closed_alt. intros w s. simpl.
  destruct (decide (u = w)) as [<-|Hne].
  - rewrite lookup_insert_eq. intros [= <-]. split; [done|].
    intros x [->%elem_of_singleton|Hx]%elem_of_union; [done|].
    unfold successors in Hx. destruct (m_edges g !! u) as [s|] eqn:Hs; [|set_solver].
    open_closed Hinv. by apply (Hinv u s).
  - rewrite lookup_insert_ne by done. open_closed Hsub. apply Hsub.
Qed.

Lemma edges_closed_removeVertex g u :
  edges_closed g → edges_closed (removeVertex u g).2.
Proof.
  intros Hinv. unfold removeVertex.
  destruct (m_vertices g !! u) as [owned|] eqn:Hu; [|done]. simpl.
  apply edges_closed_alt. open_closed Hinv.
  intros w s'. unfold owns. simpl. rewrite lookup_fmap.
  destruct (decide (w = u)) as [->|Hw]; [by rewrite lookup_delete_eq|].
  rewrite lookup_delete_ne by done.
  destruct (m_edges g !! w) as [s|] eqn:Hs; [|done]. simpl. intros [= <-].
  destruct (Hinv w s Hs) as [H1 H2]. unfold owns in *. split.
  - intros Hne. rewrite lookup_delete_ne by done. apply H1.
    case_decide; set_solver.
  - intros x Hx. assert (x ∈ s ∧ x ≠ u) as [Hxs Hxu] by (case_decide; set_solver).
    rewrite lookup_delete_ne by done. by apply H2.
Qed.

Lemma edges_closed_removeEdge g u v :
  edges_closed g → edges_closed (removeEdge u v g).2.
Proof.
  intros Hinv. unfold removeEdge.
  destruct (contains u (m_vertices g) && contains v (m_vertices g)); [|done].
  pose proof (edges_closed_subscript g u Hinv) as Hsub.
  pose proof (subscript_fst u (m_edges g)) as Hfst.
  destruct (subscript u (m_edges g)) as [uSuccessors edges]. simpl in *.
  case_decide; [|done]. simpl.
  apply edges_closed_alt. intros w s. simpl.
  destruct (decide (u = w)) as [<-|Hne].
  - rewrite lookup_insert_eq. intros [= <-].
    destruct (m_edges g !! u) as [s|] eqn:Hs; simpl in *; [|set_solver].
    open_closed Hinv. destruct (Hinv u s Hs) as [H1 H2]. subst. split.
    + intros Hne. apply H1. set_solver.
    + intros x Hx. apply H2. set_solver.
  - rewrite lookup_insert_ne by done. open_closed Hsub. apply Hsub.
Qed.

Lemma edges_closed_getSuccessors g u :
  edges_closed g → edges_closed (getSuccessors u g).2.
Proof.
  intros Hinv. unfold getSuccessors.
  pose proof (edges_closed_subscript g u Hinv) as Hsub.
  by destruct (subscript u (m_edges g)).
Qed.

Lemma edges_closed_exec (op : Op) (g g' : DirectedGraph) :
  edges_closed g → exec op g = Some g' → edges_closed g'.
Proof.
  intros Hinv Hexec. destruct op; simpl in Hexec.
  - injection Hexec as <-. by apply edges_closed_addVertex.
  - destruct (addEdge u v g) as [[b g1]|] eqn:Hadd; [|done].
    injection Hexec as <-. by eapply edges_closed_addEdge.
  - injection Hexec as <-. by apply edges_closed_removeVertex.
  - injection Hexec as <-. by apply edges_closed_removeEdge.
  - by injection Hexec as <-.
  - by injection Hexec as <-.
  - injection Hexec as <-. by apply edges_closed_getSuccessors.
  - by injection Hexec as <-.
  - destruct (toString g); simpl in Hexec; [|done]. by injection Hexec as <-.
  - destruct (heap g !! u); simpl in Hexec; [|done]. by injection Hexec as <-.
Qed.

(** C7: every public operation that returns leaves the adjacency invariant
    in place: afterwards every member of every successor set is a vertex of
    the graph, and so is every key of the adjacency map, entries with an empty
    successor set apart. *)
Theorem adjacency_invariant_preserved (op : Op) (g g' : DirectedGraph) :
  edges_closed g → exec op g = Some g' → edges_closed g'.
Proof. apply edges_closed_exec. Qed.

(** ** Traces and reachable states *)

Lemma run_invariant (P : DirectedGraph → Prop) :
  (∀ op g g', P g → alloc_ok op g → exec op g = Some g' → P g') →
  ∀ ops g g', P g → run ops g = Some g' → P g'.
Proof.
  intros Hstep ops. induction ops as [|op ops IH]; intros g g' HP Hrun; simpl in Hrun.
  - by injection Hrun as <-.
  - unfold step in Hrun. case_decide as Hok; [|done].
    destruct (exec op g) as [g1|] eqn:Hexec; [|done]. simpl in Hrun.
    eapply IH; [|done]. by eapply Hstep.
Qed.

Lemma reachable_invariant (P : DirectedGraph → Prop) :
  P DirectedGraph_new →
  (∀ op g g', P g → alloc_ok op g → exec op g = Some g' → P g') →
  ∀ g, reachable g → P g.
Proof. intros Hnew Hstep g [ops Hrun]. by eapply run_invariant. Qed.

Lemma run_app ops1 ops2 g :
  run (ops1 ++ ops2) g = g' ← run ops1 g; run ops2 g'.
Proof.
  revert g. induction ops1 as [|op ops1 IH]; intros g; simpl; [done|].
  destruct (step op g); simpl; [apply IH|done].
Qed.

(** ** The vertex store *)

Lemma store_ok_new : store_ok DirectedGraph_new.
Proof. split; [apply map_Forall_empty|]. simpl. by rewrite !dom_empty_L. Qed.

Lemma store_ok_owned g k owned : store_ok g → m_vertices g !! k = Some owned → owned = k.
Proof. intros [Hk _] Hl. by apply (Hk k owned). Qed.

Lemma store_ok_live g p : store_ok g → is_Some (heap g !! p) ↔ owns g p.
Proof. intros [_ Hd]. unfold owns. by rewrite <- !elem_of_dom, Hd. Qed.

Lemma store_ok_step op g g' :
  store_ok g → alloc_ok op g → exec op g = Some g' → store_ok g'.
Proof.
  intros Hok Halloc Hexec. destruct op; simpl in Hexec, Halloc.
  - injection Hexec as <-. unfold addVertex.
    assert (m_vertices g !! p = None) as Hp.
    { apply eq_None_not_Some. rewrite <- (store_ok_live g p Hok), Halloc.
      by intros []. }
    apply contains_false in Hp as Hc. rewrite Hc. simpl.
    destruct Hok as [Hk Hd]. split; simpl.
    + by apply map_Forall_insert_2.
    + by rewrite !dom_insert_L, Hd.
  - destruct (addEdge u v g) as [[b g1]|] eqn:Hadd; [|done]. injection Hexec as <-.
    unfold addEdge in Hadd.
    destruct (contains u (m_vertices g)); [|done].
    destruct (contains v (m_vertices g)); [|done]. simpl in Hadd.
    destruct (subscript u (m_edges g)). case_decide; by simplify_eq.
  - injection Hexec as <-. unfold removeVertex.
    destruct (m_vertices g !! u) as [owned|] eqn:Hu; [|done]. simpl.
    assert (owned = u) as -> by by eapply store_ok_owned.
    destruct Hok as [Hk Hd]. split; simpl.
    + by apply map_Forall_delete.
    + by rewrite !dom_delete_L, Hd.
  - injection Hexec as <-. unfold removeEdge.
    destruct (contains u (m_vertices g) && contains v (m_vertices g)); [|done].
    destruct (subscript u (m_edges g)). by case_decide.
  - by injection Hexec as <-.
  - by injection Hexec as <-.
  - injection Hexec as <-. unfold getSuccessors. by destruct (subscript u (m_edges g)).
  - by injection Hexec as <-.
  - destruct (toString g); simpl in Hexec; [|done]. by injection Hexec as <-.
  - destruct (heap g !! u) as [vx|] eqn:Hu; simpl in Hexec; [|done].
    injection Hexec as <-. destruct Hok as [Hk Hd]. split; simpl; [done|].
    rewrite dom_insert_L, <- Hd. apply elem_of_dom_2 in Hu. set_solver.
Qed.

Lemma reachable_store_ok g : reachable g → store_ok g.
Proof. apply reachable_invariant; [apply store_ok_new|apply store_ok_step]. Qed.

Lemma reachable_edges_closed g : reachable g → edges_closed g.
Proof.
  apply reachable_invariant; [apply edges_closed_new|].
  intros op g0 g' H _. by apply edges_closed_exec.
Qed.

(** ** getVertices and getSuccessors *)

Lemma elem_of_getVertices_const g p : p ∈ getVertices_const g ↔ owns g p.
Proof.
  unfold getVertices_const, owns. rewrite list_elem_of_fmap. split.
  - intros ([k x] & -> & Hin). apply elem_of_map_to_list in Hin. by exists x.
  - intros [x Hx]. exists (p, x). split; [done|]. by apply elem_of_map_to_list.
Qed.

Lemma elem_of_getVertices g p :
  p ∈ (getVertices g).1 ↔ ∃ k, m_vertices g !! k = Some p.
Proof.
  unfold getVertices. simpl. rewrite list_elem_of_fmap. split.
  - intros ([k x] & -> & Hin). apply elem_of_map_to_list in Hin. by exists k.
  - intros [k Hk]. exists (k, p). split; [done|]. by apply elem_of_map_to_list.
Qed.

Lemma getVertices_keys g : store_ok g → (getVertices g).1 = getVertices_const g.
Proof.
  intros Hok. unfold getVertices, getVertices_const. simpl.
  apply Forall_fmap_ext, Forall_forall. intros [k owned] Hin.
  apply elem_of_map_to_list in Hin. simpl. by eapply store_ok_owned.
Qed.

Lemma NoDup_getVertices_const g : NoDup (getVertices_const g).
Proof. apply NoDup_fst_map_to_list. Qed.

Lemma getSuccessors_fst g u : (getSuccessors u g).1 = elements (successors g u).
Proof.
  unfold getSuccessors. pose proof (subscript_fst u (m_edges g)) as Hfst.
  destruct (subscript u (m_edges g)). simpl in *. by subst.
Qed.

Lemma getSuccessors_snd g u :
  (getSuccessors u g).2 = set_edges g (subscript u (m_edges g)).2.
Proof. unfold getSuccessors. by destruct (subscript u (m_edges g)). Qed.

Lemma getSuccessors_const_elements g u :
  getSuccessors_const u g = elements (successors g u).
Proof.
  unfold getSuccessors_const, successors.
  destruct (contains u (m_edges g)) eqn:Hc; [done|].
  apply contains_false in Hc. rewrite Hc. simpl. by rewrite elements_empty.
Qed.

Lemma same_graph_getSuccessors g u : same_graph g (getSuccessors u g).2.
Proof.
  rewrite getSuccessors_snd. repeat split; try done.
  intros w. apply successors_subscript.
Qed.

Lemma unowned_no_successors g u : edges_closed g → ¬ owns g u → successors g u = ∅.
Proof.
  intros Hinv Hu. unfold successors.
  destruct (m_edges g !! u) as [s|] eqn:Hs; [|done]. simpl.
  open_closed Hinv. destruct (Hinv u s Hs) as [H1 _].
  destruct (decide (s = ∅)) as [|Hne]; [done|]. destruct Hu. by apply H1.
Qed.

(** ** removeVertex *)

Lemma removeVertex_owned g u owned :
  m_vertices g !! u = Some owned →
  removeVertex u g =
    (true,
     {| heap := delete owned (heap g);
        m_vertexCounter := m_vertexCounter g;
        m_vertices := delete u (m_vertices g);
        m_edges := (λ successors : gset ptr,
                      if decide (u ∈ successors) then successors ∖ {[u]} else successors)
                   <$> delete u (m_edges g) |}).
Proof. unfold removeVertex. by intros ->. Qed.

Lemma removeVertex_unowned g u : ¬ owns g u → removeVertex u g = (false, g).
Proof.
  unfold removeVertex, owns. intros Hu.
  destruct (m_vertices g !! u); [by destruct Hu|done].
Qed.

Lemma removeVertex_successors g u w :
  owns g u →
  successors (removeVertex u g).2 w = if decide (w = u) then ∅ else successors g w ∖ {[u]}.
Proof.
  intros [owned Hu]. rewrite (removeVertex_owned _ _ _ Hu). unfold successors. simpl.
  rewrite lookup_fmap. case_decide as Hw.
  - subst w. by rewrite lookup_delete_eq.
  - rewrite lookup_delete_ne by done.
    destruct (m_edges g !! w) as [s|]; simpl; [|set_solver].
    case_decide; set_solver.
Qed.

(** C3: removing a vertex [u] of the graph answers [true]; afterwards
    neither overload of [getVertices] lists [u], the adjacency map has no
    entry under [u], and no successor set contains [u].  The other vertices
    and the edges between them stay.  For a [u] that is not a vertex of the
    graph the answer is [false] and the graph is the same. *)
Theorem removeVertex_cascade (g : DirectedGraph) (u : ptr) :
  reachable g →
  (owns g u →
     ∃ g', removeVertex u g = (true, g') ∧
           (u ∉ fst (getVertices g')) ∧ (u ∉ getVertices_const g') ∧
           m_edges g' !! u = None ∧
           (∀ w, ¬ has_edge g' w u) ∧
           (∀ w, owns g' w ↔ owns g w ∧ w ≠ u) ∧
           (∀ a b, has_edge g' a b ↔ has_edge g a b ∧ a ≠ u ∧ b ≠ u)) ∧
  (¬ owns g u → removeVertex u g = (false, g)).
Proof.
  intros Hreach. pose proof (reachable_store_ok g Hreach) as Hok.
  split; [|apply removeVertex_unowned].
  intros Hu. pose proof (removeVertex_successors g u) as Hsucc.
  destruct Hu as [owned Hu]. specialize (λ w, Hsucc w (ex_intro _ owned Hu)).
  rewrite (removeVertex_owned _ _ _ Hu) in *.
  assert (owned = u) as -> by by eapply store_ok_owned.
  eexists. split; [done|].
  set (g' := mkGraph _ _ _ _) in *.
  assert (∀ w, owns g' w ↔ owns g w ∧ w ≠ u) as Howns.
  { intros w. unfold owns. simpl. destruct (decide (w = u)) as [->|Hw].
    - rewrite lookup_delete_eq. split; [by intros []|naive_solver].
    - rewrite lookup_delete_ne by done. naive_solver. }
  split_and!.
  - rewrite elem_of_getVertices. intros [k Hk]. simpl in Hk.
    apply lookup_delete_Some in Hk as [Hne Hk].
    by apply (store_ok_owned _ _ _ Hok) in Hk.
  - rewrite elem_of_getVertices_const, Howns. naive_solver.
  - simpl. by rewrite lookup_fmap, lookup_delete_eq.
  - intros w. unfold has_edge. rewrite Hsucc. case_decide; set_solver.
  - done.
  - intros a b. unfold has_edge. rewrite Hsucc. case_decide; set_solver.
Qed.

(** ** toString sees the vertices and the edges only *)

Lemma for_each_ext {A} (f1 f2 : string → A → option string) s l :
  (∀ s x, x ∈ l → f1 s x = f2 s x) → for_each f1 s l = for_each f2 s l.
Proof.
  revert s. induction l as [|x l IH]; intros s Hext; simpl; [done|].
  rewrite Hext by set_solver. destruct (f2 s x); simpl; [|done].
  apply IH. intros s' y Hy. apply Hext. set_solver.
Qed.

Lemma toSortedVertices_nil h : toSortedVertices h [] = Some [].
Proof. unfold toSortedVertices. by rewrite decide_True by constructor. Qed.

(** An entry with an empty successor set prints like a missing entry. *)
Lemma print_edges_of_successors g s u :
  print_edges_of g s u =
    uSuccessorsSorted ← toSortedVertices (heap g) (elements (successors g u));
    for_each (print_edge (heap g) u) s uSuccessorsSorted.
Proof.
  unfold print_edges_of, successors.
  destruct (contains u (m_edges g)) eqn:Hc; [done|].
  apply contains_false in Hc. rewrite Hc. simpl.
  by rewrite elements_empty, toSortedVertices_nil.
Qed.

Lemma toString_same_graph g g' : same_graph g g' → toString g' = toString g.
Proof.
  intros (Hh & _ & Hv & Hs). unfold toString, getVertices_const. rewrite Hh, Hv.
  destruct (toSortedVertices _ _) as [sortedVertices|]; simpl; [|done].
  destruct (for_each (print_vertex _) _ _) as [s|]; simpl; [|done].
  apply for_each_ext. intros s' u _.
  by rewrite !print_edges_of_successors, Hh, Hs.
Qed.

Lemma same_graph_refl g : same_graph g g.
Proof. by repeat split. Qed.

Lemma same_graph_subscript g u : same_graph g (set_edges g (subscript u (m_edges g)).2).
Proof. repeat split; try done. intros w. apply successors_subscript. Qed.

(** ** removeEdge *)

Lemma removeEdge_defined g u v :
  removeEdge u v g =
    if decide (owns g u ∧ owns g v) then
      if decide (has_edge g u v)
      then (true, set_edges g (<[u := successors g u ∖ {[v]}]> (subscript u (m_edges g)).2))
      else (false, set_edges g (subscript u (m_edges g)).2)
    else (false, g).
Proof.
  unfold removeEdge. case_decide as Howns.
  - destruct Howns as [Hu%contains_true Hv%contains_true]. rewrite Hu, Hv. simpl.
    pose proof (subscript_fst u (m_edges g)) as Hfst.
    destruct (subscript u (m_edges g)) as [uSuccessors edges]. simpl in *. subst.
    unfold has_edge, successors. by repeat case_decide.
  - destruct (contains u (m_vertices g)) eqn:Hu; [|done].
    destruct (contains v (m_vertices g)) eqn:Hv; [|done].
    apply contains_true in Hu. apply contains_true in Hv. by destruct Howns.
Qed.

(** C6: [removeEdge(u, v)] answers [false] when [u] or [v] is not a vertex
    of the graph or the edge [u -> v] does not exist, and then the vertices,
    their ids and payloads, the counter, the edges and the rendering of
    [toString] are what they were (the adjacency map itself may have gained
    an empty entry under [u]).  When both are vertices of the graph and
    the edge exists it answers [true], the edge is gone, every other edge and
    every vertex stays. *)
Theorem removeEdge_missing_or_present (g : DirectedGraph) (u v : ptr) :
  (¬ (owns g u ∧ owns g v ∧ has_edge g u v) →
     ∃ g', removeEdge u v g = (false, g') ∧ same_graph g g' ∧ toString g' = toString g) ∧
  (owns g u → owns g v → has_edge g u v →
     ∃ g', removeEdge u v g = (true, g') ∧
           ¬ has_edge g' u v ∧
           heap g' = heap g ∧ m_vertexCounter g' = m_vertexCounter g ∧
           m_vertices g' = m_vertices g ∧
           ∀ a b, has_edge g' a b ↔ has_edge g a b ∧ ¬ (a = u ∧ b = v)).
Proof.
  split.
  - intros Hn. rewrite removeEdge_defined. case_decide as Howns.
    + rewrite decide_False by naive_solver. eexists. split; [done|].
      split; [apply same_graph_subscript|]. apply toString_same_graph, same_graph_subscript.
    + exists g. split; [done|]. split; [apply same_graph_refl|done].
  - intros Hu Hv He. rewrite removeEdge_defined.
    rewrite decide_True by done. rewrite decide_True by done.
    eexists. split; [done|]. split_and!; try done.
    + unfold has_edge. rewrite successors_insert. rewrite decide_True by done. set_solver.
    + intros a b. unfold has_edge. rewrite successors_insert, subscript_snd_default.
      fold (successors g a). case_decide; [subst a|]; set_solver.
Qed.

(** ** The rendering, in terms of the sorted pointers *)

Lemma append_assoc (a b c : string) :
  String.app (String.app a b) c = String.app a (String.app b c).
Proof.
  induction a as [|ch a IH]; [done|].
  change (String ch (String.app (String.app a b) c) = String ch (String.app a (String.app b c))).
  by f_equal.
Qed.

Lemma append_nil_r (a : string) : String.app a EmptyString = a.
Proof.
  induction a as [|ch a IH]; [done|].
  change (String ch (String.app a EmptyString) = String ch a). by f_equal.
Qed.

Lemma for_each_lines {A} (f : string → A → option string) (line : A → string) s l :
  (∀ s x, x ∈ l → f s x = Some (s +:+ line x)%string) →
  for_each f s l = Some (s +:+ flatten (line <$> l))%string.
Proof.
  revert s. induction l as [|x l IH]; intros s Hf; simpl.
  - by rewrite append_nil_r.
  - rewrite Hf by set_solver. simpl. rewrite IH.
    + by rewrite append_assoc.
    + intros s' y Hy. apply Hf. set_solver.
Qed.

Lemma toSortedVertices_live h vs :
  (∀ p, p ∈ vs → is_Some (h !! p)) →
  toSortedVertices h vs = Some (merge_sort (id_order h) vs).
Proof.
  intros Hlive. unfold toSortedVertices. rewrite decide_True; [done|].
  by apply Forall_forall.
Qed.

Lemma elem_of_merge_sort {A} (R : relation A) `{∀ x y, Decision (R x y)} l x :
  x ∈ merge_sort R l ↔ x ∈ l.
Proof. by rewrite merge_sort_Permutation. Qed.

Lemma print_vertex_live h s v :
  is_Some (h !! v) → print_vertex h s v = Some (s +:+ vertex_line (id_at h v))%string.
Proof. intros [vx Hv]. unfold print_vertex, id_at. by rewrite Hv. Qed.

Lemma print_edge_live h u s v :
  is_Some (h !! u) → is_Some (h !! v) →
  print_edge h u s v = Some (s +:+ edge_line (id_at h u) (id_at h v))%string.
Proof. intros [ux Hu] [vx Hv]. unfold print_edge, id_at. by rewrite Hu, Hv. Qed.

Lemma print_edges_of_live g s u :
  is_Some (heap g !! u) →
  (∀ v, v ∈ successors g u → is_Some (heap g !! v)) →
  print_edges_of g s u = Some (s +:+ edge_lines_of g u)%string.
Proof.
  intros Hu Hsucc. rewrite print_edges_of_successors.
  rewrite toSortedVertices_live by (intros p Hp; apply Hsucc; set_solver).
  simpl. apply for_each_lines. intros s' v Hv%elem_of_merge_sort.
  apply print_edge_live; [done|]. apply Hsucc. set_solver.
Qed.

Lemma toString_sorted_pointers g :
  store_ok g → edges_closed g →
  toString g =
    let sorted := merge_sort (id_order (heap g)) (getVertices_const g) in
    Some ("DirectedGraph:" +:+ nl +:+ "  vertices:" +:+ nl
          +:+ flatten ((λ p, vertex_line (id_at (heap g) p)) <$> sorted)
          +:+ "  edges:" +:+ nl
          +:+ flatten (edge_lines_of g <$> sorted))%string.
Proof.
  intros Hok Hinv. simpl.
  assert (∀ p, p ∈ getVertices_const g → is_Some (heap g !! p)) as Hlive.
  { intros p Hp. apply store_ok_live; [done|]. by apply elem_of_getVertices_const. }
  unfold toString. rewrite toSortedVertices_live by done. simpl.
  rewrite (for_each_lines _ (λ p, vertex_line (id_at (heap g) p))).
  2:{ intros s v Hv%elem_of_merge_sort. apply print_vertex_live. by apply Hlive. }
  simpl. rewrite (for_each_lines _ (edge_lines_of g)).
  2:{ intros s u Hu%elem_of_merge_sort. apply print_edges_of_live; [by apply Hlive|].
      intros v Hv. apply store_ok_live; [done|].
      unfold successors in Hv. destruct (m_edges g !! u) as [ss|] eqn:Hs; [|set_solver].
      open_closed Hinv. by apply (Hinv u ss). }
  f_equal. by rewrite !append_assoc.
Qed.

(** [toString] returns on every reachable graph. *)
Lemma toString_defined g : reachable g → is_Some (toString g).
Proof.
  intros Hreach. rewrite toString_sorted_pointers; [by eexists| |].
  - by apply reachable_store_ok.
  - by apply reachable_edges_closed.
Qed.

(** ** The rendering is the one the specification describes *)

Lemma id_order_total h : Total (id_order h).
Proof. intros x y. unfold id_order, id_less. lia. Qed.

Lemma id_order_le h x y : id_order h x y ↔ id_at h x ≤ id_at h y.
Proof. unfold id_order, id_less. lia. Qed.

Lemma NoDup_fmap_inj_on {A B} (f : A → B) (l : list A) x y :
  NoDup (f <$> l) → x ∈ l → y ∈ l → f x = f y → x = y.
Proof.
  induction l as [|a l IH]; [by intros _ ?%elem_of_nil|].
  rewrite fmap_cons, NoDup_cons. intros [Ha Hl] Hx Hy Hf.
  apply elem_of_cons in Hx as [->|Hx]; apply elem_of_cons in Hy as [->|Hy].
  - done.
  - destruct Ha. rewrite Hf. by apply list_elem_of_fmap_2.
  - destruct Ha. rewrite <- Hf. by apply list_elem_of_fmap_2.
  - by apply IH.
Qed.

(** Sorting pointers by id and reading the ids gives the sorted ids. *)
Lemma sorted_ids h (l : list ptr) (X : gset N) :
  id_at h <$> l ≡ₚ elements X →
  id_at h <$> merge_sort (id_order h) l = merge_sort N.le (elements X).
Proof.
  intros Hperm. apply (Sorted_unique N.le).
  - apply (Sorted_fmap _ (id_order h)).
    + intros x y. by rewrite id_order_le.
    + apply Sorted_merge_sort, id_order_total.
  - apply Sorted_merge_sort, _.
  - by rewrite !merge_sort_Permutation.
Qed.

(** [std::sort] is not stable and leaves the order of equal elements open;
    on pointers with distinct ids every outcome it may produce is the one of
    [merge_sort]. *)
Lemma sort_outcome_unique h (l sorted : list ptr) :
  NoDup (id_at h <$> l) → sorted ≡ₚ l → Sorted (id_order h) sorted →
  sorted = merge_sort (id_order h) l.
Proof.
  intros Hnd Hperm Hsorted.
  assert (Transitive (id_order h)) as Htrans.
  { intros x y z. rewrite !id_order_le. lia. }
  apply (Sorted_unique_strong (id_order h)).
  - intros x y Hx Hy Hxy Hyx. rewrite id_order_le in Hxy, Hyx.
    apply (NoDup_fmap_inj_on (id_at h) l); [done| | |lia].
    + by rewrite <- Hperm.
    + by rewrite <- (merge_sort_Permutation (id_order h) l).
  - done.
  - apply Sorted_merge_sort, id_order_total.
  - by rewrite merge_sort_Permutation.
Qed.

Lemma getVertices_const_dom g : getVertices_const g ≡ₚ elements (dom (m_vertices g)).
Proof.
  apply NoDup_Permutation; [apply NoDup_getVertices_const|apply NoDup_elements|].
  intros p. by rewrite elem_of_getVertices_const, elem_of_elements, elem_of_dom.
Qed.

Lemma ids_unique_inj g p q :
  ids_unique g → owns g p → owns g q → id_at (heap g) p = id_at (heap g) q → p = q.
Proof.
  intros Hu Hp Hq. apply (NoDup_fmap_inj_on _ (getVertices_const g)); [done| |];
    by apply elem_of_getVertices_const.
Qed.

Lemma vertex_ids_elements g :
  ids_unique g → id_at (heap g) <$> getVertices_const g ≡ₚ elements (vertex_ids g).
Proof.
  intros Hu. unfold vertex_ids, set_map.
  rewrite elements_list_to_set.
  - by rewrite getVertices_const_dom.
  - unfold ids_unique in Hu. by rewrite <- getVertices_const_dom.
Qed.

Lemma elem_of_edge_pairs g a b :
  (a, b) ∈ edge_pairs g ↔
  ∃ u v, has_edge g u v ∧ a = id_at (heap g) u ∧ b = id_at (heap g) v.
Proof.
  unfold edge_pairs. rewrite elem_of_set_bind. split.
  - intros (u & Hu & Hab). apply elem_of_map in Hab as (v & [= -> ->] & Hv).
    by exists u, v.
  - intros (u & v & He & -> & ->). exists u. split.
    + apply has_edge_lookup in He as (s & Hs & _). by apply elem_of_dom.
    + apply elem_of_map. by exists v.
Qed.

Lemma has_edge_owns g u v : edges_closed g → has_edge g u v → owns g u ∧ owns g v.
Proof.
  intros Hinv (s & Hs & Hv)%has_edge_lookup. open_closed Hinv.
  destruct (Hinv u s Hs) as [H1 H2]. split; [|by apply H2].
  apply H1. set_solver.
Qed.

Lemma spec_successors_edge_pairs g u :
  edges_closed g → ids_unique g → owns g u →
  id_at (heap g) <$> elements (successors g u)
    ≡ₚ elements (spec_successors (edge_pairs g) (id_at (heap g) u)).
Proof.
  intros Hinv Huniq Hu. apply NoDup_Permutation.
  - apply NoDup_fmap_2_strong; [|apply NoDup_elements].
    intros x y Hx%elem_of_elements Hy%elem_of_elements.
    apply ids_unique_inj; [done| |].
    + by apply (has_edge_owns g u x).
    + by apply (has_edge_owns g u y).
  - apply NoDup_elements.
  - intros b. rewrite list_elem_of_fmap, elem_of_elements.
    unfold spec_successors. rewrite elem_of_map. split.
    + intros (v & -> & Hv%elem_of_elements).
      exists (id_at (heap g) u, id_at (heap g) v). split; [done|].
      apply elem_of_filter. split; [done|]. apply elem_of_edge_pairs. by exists u, v.
    + intros ([a b'] & -> & [Ha Hin]%elem_of_filter). simpl in *. subst a.
      apply elem_of_edge_pairs in Hin as (u' & v & He & Hid & ->).
      exists v. split; [done|]. apply elem_of_elements.
      destruct (has_edge_owns g u' v Hinv He) as [Hu' _].
      by rewrite (ids_unique_inj g u u' Huniq Hu Hu' Hid).
Qed.

Lemma edge_lines_of_spec g u :
  edges_closed g → ids_unique g → owns g u →
  edge_lines_of g u =
    flatten (edge_line (id_at (heap g) u)
             <$> merge_sort N.le (elements (spec_successors (edge_pairs g) (id_at (heap g) u)))).
Proof.
  intros Hinv Huniq Hu. unfold edge_lines_of.
  rewrite <- (sorted_ids (heap g) (elements (successors g u)))
    by by apply spec_successors_edge_pairs.
  by rewrite <- list_fmap_compose.
Qed.

Lemma toString_spec g :
  store_ok g → edges_closed g → ids_unique g →
  toString g = Some (spec_toString (vertex_ids g) (edge_pairs g)).
Proof.
  intros Hok Hinv Huniq. rewrite toString_sorted_pointers by done.
  simpl. unfold spec_toString. do 6 f_equal.
  - rewrite <- (sorted_ids (heap g) (getVertices_const g)) by by apply vertex_ids_elements.
    by rewrite <- list_fmap_compose.
  - do 2 f_equal.
    rewrite <- (sorted_ids (heap g) (getVertices_const g)) by by apply vertex_ids_elements.
    rewrite <- list_fmap_compose. f_equal. apply Forall_fmap_ext, Forall_forall.
    intros u Hu%elem_of_merge_sort%elem_of_getVertices_const. simpl.
    by apply edge_lines_of_spec.
Qed.

(** ** The queries *)

Lemma elem_of_getSuccessors g u v : v ∈ fst (getSuccessors u g) ↔ has_edge g u v.
Proof. by rewrite getSuccessors_fst, elem_of_elements. Qed.

Lemma elem_of_getSuccessors_const g u v : v ∈ getSuccessors_const u g ↔ has_edge g u v.
Proof. by rewrite getSuccessors_const_elements, elem_of_elements. Qed.

Lemma getSuccessors_empty g u :
  successors g u = ∅ → fst (getSuccessors u g) = [] ∧ getSuccessors_const u g = [].
Proof.
  intros He. by rewrite getSuccessors_fst, getSuccessors_const_elements, He, elements_empty.
Qed.

(** C8: [getSuccessors(u)], in both overloads, returns the vertices [u] has
    an edge to, each once; it returns the empty sequence when [u] has no
    outgoing edge, when [u] is not a vertex of the graph, and when [u] has
    just been removed.  Both overloads are total: there is no failure to
    return. *)
Theorem getSuccessors_exact_or_empty (g : DirectedGraph) (u : ptr) :
  reachable g →
  (∀ v, v ∈ fst (getSuccessors u g) ↔ has_edge g u v) ∧
  NoDup (fst (getSuccessors u g)) ∧
  (∀ v, v ∈ getSuccessors_const u g ↔ has_edge g u v) ∧
  NoDup (getSuccessors_const u g) ∧
  ((∀ v, ¬ has_edge g u v) →
     fst (getSuccessors u g) = [] ∧ getSuccessors_const u g = []) ∧
  (¬ owns g u →
     fst (getSuccessors u g) = [] ∧ getSuccessors_const u g = []) ∧
  (fst (getSuccessors u (snd (removeVertex u g))) = [] ∧
   getSuccessors_const u (snd (removeVertex u g)) = []).
Proof.
  intros Hreach. pose proof (reachable_edges_closed g Hreach) as Hinv.
  assert (successors (snd (removeVertex u g)) u = ∅) as Hgone.
  { destruct (decide (owns g u)) as [Hu|Hu].
    - rewrite removeVertex_successors by done. by rewrite decide_True.
    - rewrite removeVertex_unowned by done. by apply unowned_no_successors. }
  split; [apply elem_of_getSuccessors|].
  split; [rewrite getSuccessors_fst; apply NoDup_elements|].
  split; [apply elem_of_getSuccessors_const|].
  split; [rewrite getSuccessors_const_elements; apply NoDup_elements|].
  split; [|split].
  - intros Hno. apply getSuccessors_empty. unfold has_edge in Hno. set_solver.
  - intros Hu. by apply getSuccessors_empty, unowned_no_successors.
  - by apply getSuccessors_empty.
Qed.

(** C9: on a reachable graph the two overloads of [getVertices] return the
    same handles, in the same order, and so do the two overloads of
    [getSuccessors] for any [u]; the overloads that are not [const] leave a
    graph with the same vertices, payloads and edges. *)
Theorem overloads_agree (g : DirectedGraph) (u : ptr) :
  reachable g →
  fst (getVertices g) = getVertices_const g ∧
  fst (getSuccessors u g) = getSuccessors_const u g ∧
  snd (getVertices g) = g ∧
  same_graph g (snd (getSuccessors u g)).
Proof.
  intros Hreach. split_and!.
  - by apply getVertices_keys, reachable_store_ok.
  - by rewrite getSuccessors_fst, getSuccessors_const_elements.
  - done.
  - apply same_graph_getSuccessors.
Qed.

Lemma query_same_graph op g g' :
  is_query op = true → exec op g = Some g' → same_graph g g'.
Proof.
  intros Hq Hexec. destruct op; try done; simpl in Hexec.
  - injection Hexec as <-. apply same_graph_refl.
  - injection Hexec as <-. apply same_graph_refl.
  - injection Hexec as <-. apply same_graph_getSuccessors.
  - injection Hexec as <-. apply same_graph_refl.
  - destruct (toString g); simpl in Hexec; [|done]. injection Hexec as <-.
    apply same_graph_refl.
Qed.

Lemma query_returns op g : reachable g → is_query op = true → is_Some (exec op g).
Proof.
  intros Hreach Hq. destruct op; try done; simpl; try by eexists.
  destruct (toString_defined g Hreach) as [s ->]. by eexists.
Qed.

(** C10: a query, [getVertices], [getSuccessors] in either overload or
    [toString], leaves the owned vertices with their ids and payloads, the
    counter and the edges as they were, and [toString] renders the same
    afterwards; on a reachable graph every query returns. *)
Theorem queries_leave_graph (op : Op) (g : DirectedGraph) :
  is_query op = true →
  (∀ g', exec op g = Some g' → same_graph g g' ∧ toString g' = toString g) ∧
  (reachable g → is_Some (exec op g)).
Proof.
  intros Hq. split.
  - intros g' Hexec. pose proof (query_same_graph op g g' Hq Hexec) as Hsame.
    split; [done|]. by apply toString_same_graph.
  - intros Hreach. by apply query_returns.
Qed.

(** ** The counter *)

Lemma size_wrap_small n : n < 2 ^ SIZE_BITS → size_wrap n = n.
Proof. intros Hn. unfold size_wrap. by apply N.mod_small. Qed.

Lemma size_wrap_bound n : size_wrap n < 2 ^ SIZE_BITS.
Proof. unfold size_wrap. by apply N.mod_upper_bound. Qed.

Lemma size_wrap_succ c i : size_wrap (size_wrap (c + 1) + i) = size_wrap (c + (1 + i)).
Proof. unfold size_wrap. rewrite N.Div0.add_mod_idemp_l. f_equal. lia. Qed.

Lemma step_Some op g g' : step op g = Some g' ↔ alloc_ok op g ∧ exec op g = Some g'.
Proof. unfold step. case_decide; naive_solver. Qed.

Lemma addVertex_new_key g p data :
  m_vertices g !! p = None →
  addVertex p data g =
    (p, {| heap := <[p := mkVertex (m_vertexCounter g) data]> (heap g);
           m_vertexCounter := size_wrap (m_vertexCounter g + 1);
           m_vertices := <[p := p]> (m_vertices g);
           m_edges := m_edges g |}).
Proof. intros Hp%contains_false. unfold addVertex. by rewrite Hp. Qed.

Lemma addVertex_fresh g p data :
  store_ok g → heap g !! p = None →
  addVertex p data g =
    (p, {| heap := <[p := mkVertex (m_vertexCounter g) data]> (heap g);
           m_vertexCounter := size_wrap (m_vertexCounter g + 1);
           m_vertices := <[p := p]> (m_vertices g);
           m_edges := m_edges g |}).
Proof.
  intros Hok Hp. unfold addVertex.
  assert (contains p (m_vertices g) = false) as ->; [|done].
  apply contains_false, eq_None_not_Some. rewrite <- (store_ok_live g p Hok), Hp.
  by intros [].
Qed.

Lemma exec_counter op g g' :
  exec op g = Some g' →
  m_vertexCounter g' =
    match op with
    | OpAddVertex _ _ => size_wrap (m_vertexCounter g + 1)
    | _ => m_vertexCounter g
    end.
Proof.
  intros Hexec. destruct op; simpl in Hexec.
  - injection Hexec as <-. unfold addVertex. by destruct (contains p (m_vertices g)).
  - destruct (addEdge u v g) as [[b g1]|] eqn:Hadd; [|done]. injection Hexec as <-.
    unfold addEdge in Hadd.
    destruct (contains u (m_vertices g)); [|done].
    destruct (contains v (m_vertices g)); [|done]. simpl in Hadd.
    destruct (subscript u (m_edges g)). case_decide; by simplify_eq.
  - injection Hexec as <-. unfold removeVertex. by destruct (m_vertices g !! u).
  - injection Hexec as <-. unfold removeEdge.
    destruct (contains u (m_vertices g) && contains v (m_vertices g)); [|done].
    destruct (subscript u (m_edges g)). by case_decide.
  - by injection Hexec as <-.
  - by injection Hexec as <-.
  - injection Hexec as <-. unfold getSuccessors. by destruct (subscript u (m_edges g)).
  - by injection Hexec as <-.
  - destruct (toString g); simpl in Hexec; [|done]. by injection Hexec as <-.
  - destruct (heap g !! u); simpl in Hexec; [|done]. by injection Hexec as <-.
Qed.

(** Where the vertices in the store after a call come from. *)
Lemma exec_heap op g g' p vx' :
  store_ok g → alloc_ok op g → exec op g = Some g' → heap g' !! p = Some vx' →
  (∃ vx, heap g !! p = Some vx ∧ m_id vx = m_id vx') ∨
  (∃ data, op = OpAddVertex p data ∧ m_id vx' = m_vertexCounter g).
Proof.
  intros Hok Halloc Hexec Hp. destruct op; simpl in Hexec, Halloc.
  - injection Hexec as <-. rewrite addVertex_fresh in Hp by done. simpl in Hp.
    destruct (decide (p0 = p)) as [->|Hne].
    + rewrite lookup_insert_eq in Hp. injection Hp as <-. right. by exists data.
    + rewrite lookup_insert_ne in Hp by done. left. by exists vx'.
  - destruct (addEdge u v g) as [[b g1]|] eqn:Hadd; [|done]. injection Hexec as <-.
    unfold addEdge in Hadd.
    destruct (contains u (m_vertices g)); [|done].
    destruct (contains v (m_vertices g)); [|done]. simpl in Hadd.
    destruct (subscript u (m_edges g)). left. exists vx'. case_decide; by simplify_eq.
  - injection Hexec as <-. unfold removeVertex in Hp.
    destruct (m_vertices g !! u); simpl in Hp.
    + apply lookup_delete_Some in Hp as [_ Hp]. left. by exists vx'.
    + left. by exists vx'.
  - injection Hexec as <-. left. exists vx'. split; [|done]. unfold removeEdge in Hp.
    destruct (contains u (m_vertices g) && contains v (m_vertices g)); [|done].
    destruct (subscript u (m_edges g)). by case_decide.
  - injection Hexec as <-. left. by exists vx'.
  - injection Hexec as <-. left. by exists vx'.
  - injection Hexec as <-. left. exists vx'. split; [|done]. unfold getSuccessors in Hp.
    by destruct (subscript u (m_edges g)).
  - injection Hexec as <-. left. by exists vx'.
  - destruct (toString g); simpl in Hexec; [|done]. injection Hexec as <-.
    left. by exists vx'.
  - destruct (heap g !! u) as [ux|] eqn:Hu; simpl in Hexec; [|done].
    injection Hexec as <-. simpl in Hp. left.
    destruct (decide (u = p)) as [->|Hne].
    + rewrite lookup_insert_eq in Hp. injection Hp as <-. by exists ux.
    + rewrite lookup_insert_ne in Hp by done. by exists vx'.
Qed.

(** ** The ids stay distinct until the counter wraps *)

Lemma minted_so_far_new : minted_so_far 0 DirectedGraph_new.
Proof.
  split; [apply store_ok_new|]. split; [done|]. split.
  - intros p vx Hp. simpl in Hp. by rewrite lookup_empty in Hp.
  - intros p q vx vy Hp. simpl in Hp. by rewrite lookup_empty in Hp.
Qed.

Lemma minted_so_far_step op g g' k :
  minted_so_far k g → alloc_ok op g → exec op g = Some g' →
  N.of_nat (k + adds [op]) ≤ 2 ^ SIZE_BITS →
  minted_so_far (k + adds [op]) g'.
Proof.
  intros (Hok & Hc & Hbelow & Hinj) Halloc Hexec Hk.
  pose proof (exec_counter op g g' Hexec) as Hc'.
  pose proof (λ p vx', exec_heap op g g' p vx' Hok Halloc Hexec) as Hfrom.
  assert (∀ p data, op = OpAddVertex p data → m_vertexCounter g = N.of_nat k) as Hfresh.
  { intros p data ->. simpl in Hk. rewrite Hc. apply size_wrap_small. lia. }
  split; [by eapply store_ok_step|]. split; [|split].
  - rewrite Hc'. destruct op; simpl; rewrite ?Nat.add_0_r; try done.
    rewrite Hc. unfold size_wrap. rewrite N.Div0.add_mod_idemp_l. f_equal. lia.
  - intros p vx' Hp. destruct (Hfrom p vx' Hp) as [(vx & Hvx & <-)|(data & -> & ->)].
    + specialize (Hbelow p vx Hvx). lia.
    + rewrite (Hfresh p data eq_refl). simpl. lia.
  - intros p q vx' vy' Hp Hq Hid.
    destruct (Hfrom p vx' Hp) as [(vx & Hvx & Hidx)|(data & -> & Hidx)];
      destruct (Hfrom q vy' Hq) as [(vy & Hvy & Hidy)|(data' & Hop & Hidy)].
    + apply (Hinj p q vx vy); [done|done|congruence].
    + specialize (Hbelow p vx Hvx). rewrite (Hfresh q data' Hop) in Hidy. lia.
    + specialize (Hbelow q vy Hvy). rewrite (Hfresh p data eq_refl) in Hidx. lia.
    + congruence.
Qed.

Lemma adds_app ops1 ops2 : adds (ops1 ++ ops2) = (adds ops1 + adds ops2)%nat.
Proof.
  induction ops1 as [|op ops1 IH]; [done|]. destruct op; simpl; by rewrite ?IH.
Qed.

Lemma minted_so_far_run ops g g' k :
  minted_so_far k g → run ops g = Some g' →
  N.of_nat (k + adds ops) ≤ 2 ^ SIZE_BITS →
  minted_so_far (k + adds ops) g'.
Proof.
  revert g k. induction ops as [|op ops IH]; intros g k Hinv Hrun Hk; simpl in Hrun.
  - injection Hrun as <-. simpl. by rewrite Nat.add_0_r.
  - destruct (step op g) as [g1|] eqn:Hstep; [|done]. simpl in Hrun.
    apply step_Some in Hstep as [Halloc Hexec].
    change (op :: ops) with ([op] ++ ops) in *. rewrite adds_app in *.
    rewrite Nat.add_assoc in *. apply (IH g1); [|done|done].
    eapply minted_so_far_step; [done..|]. lia.
Qed.

Lemma minted_so_far_ids_unique k g : minted_so_far k g → ids_unique g.
Proof.
  intros (Hok & _ & _ & Hinj). unfold ids_unique.
  apply NoDup_fmap_2_strong; [|apply NoDup_getVertices_const].
  intros p q Hp%elem_of_getVertices_const Hq%elem_of_getVertices_const.
  apply (store_ok_live g p Hok) in Hp as [vx Hp].
  apply (store_ok_live g q Hok) in Hq as [vy Hq].
  unfold id_at. rewrite Hp, Hq. simpl. by apply Hinj.
Qed.

(** Every graph built with at most [2 ^ 64] calls of [addVertex] has
    distinct ids on its vertices. *)
Lemma run_ids_unique ops g :
  run ops DirectedGraph_new = Some g → N.of_nat (adds ops) ≤ 2 ^ SIZE_BITS → ids_unique g.
Proof.
  intros Hrun Hk. apply (minted_so_far_ids_unique (0 + adds ops)).
  by apply (minted_so_far_run ops DirectedGraph_new); [apply minted_so_far_new|..].
Qed.

(** ** The ids in call order *)

(** The [i]-th vertex a graph hands out carries the counter's value, [i]
    increments after the start. *)
Lemma minted_counter ops g :
  store_ok g → m_vertexCounter g < 2 ^ SIZE_BITS →
  minted ops g =
    (λ i, size_wrap (m_vertexCounter g + N.of_nat i)) <$> seq 0 (length (minted ops g)).
Proof.
  revert g. induction ops as [|op ops IH]; intros g Hok Hc; simpl; [done|].
  destruct (step op g) as [g'|] eqn:Hstep; [|done].
  apply step_Some in Hstep as [Halloc Hexec].
  pose proof (store_ok_step op g g' Hok Halloc Hexec) as Hok'.
  pose proof (exec_counter op g g' Hexec) as Hc'.
  assert (m_vertexCounter g' < 2 ^ SIZE_BITS) as Hb'.
  { rewrite Hc'. destruct op; try done. apply size_wrap_bound. }
  specialize (IH g' Hok' Hb').
  destruct op; simpl in Hc'; try (by rewrite <- Hc').
  simpl in Hexec, Halloc. injection Hexec as <-.
  rewrite addVertex_fresh in * by done. simpl in *.
  rewrite <- fmap_S_seq, <- list_fmap_compose. f_equal.
  - unfold id_at. rewrite lookup_insert_eq. simpl. unfold Vertex_getID. simpl.
    rewrite N.add_0_r. symmetry. by apply size_wrap_small.
  - rewrite IH at 1. apply Forall_fmap_ext, Forall_forall. intros i _.
    unfold compose. rewrite size_wrap_succ. f_equal. lia.
Qed.

Lemma StronglySorted_of_nat_seq j n : StronglySorted N.lt (N.of_nat <$> seq j n).
Proof.
  revert j. induction n as [|n IH]; intros j; simpl; constructor; [apply IH|].
  apply Forall_forall. intros x (i & -> & Hi%elem_of_seq)%list_elem_of_fmap. lia.
Qed.

Lemma length_minted_run ops g g' :
  run ops g = Some g' → length (minted ops g) = adds ops.
Proof.
  revert g. induction ops as [|op ops IH]; intros g Hrun; simpl in *; [done|].
  destruct (step op g) as [g1|]; [|done]. simpl in Hrun.
  destruct op; simpl; by rewrite (IH g1).
Qed.

(** ** Wrapping the counter *)

Lemma run_churn p g :
  heap g !! p = None → m_vertices g !! p = None → m_edges g = ∅ →
  run (churn p) g = Some (set_counter (size_wrap (m_vertexCounter g + 1)) g).
Proof.
  intros Hh Hm He.
  assert (step (OpAddVertex p 0) g = Some (addVertex p 0 g).2) as Hadd.
  { apply step_Some. by split. }
  rewrite addVertex_new_key in Hadd by done.
  simpl in Hadd. unfold churn, run. rewrite Hadd. simpl.
  erewrite removeVertex_owned by apply lookup_insert_eq. simpl.
  unfold set_counter. rewrite !delete_insert_id by done.
  by rewrite He, delete_empty, fmap_empty.
Qed.

Lemma run_churns p n g :
  heap g !! p = None → m_vertices g !! p = None → m_edges g = ∅ →
  m_vertexCounter g < 2 ^ SIZE_BITS →
  run (mjoin (replicate n (churn p))) g
  = Some (set_counter (size_wrap (m_vertexCounter g + N.of_nat n)) g).
Proof.
  revert g. induction n as [|n IH]; intros g Hh Hm He Hc.
  - simpl. rewrite N.add_0_r, size_wrap_small by done. by destruct g.
  - replace (mjoin (replicate (S n) (churn p)))
      with (churn p ++ mjoin (replicate n (churn p))) by done.
    rewrite run_app, run_churn by done. simpl.
    rewrite IH by (done || apply size_wrap_bound). simpl.
    rewrite size_wrap_succ. unfold set_counter. simpl. do 3 f_equal. lia.
Qed.

Lemma adds_churns p n : adds (mjoin (replicate n (churn p))) = n.
Proof. induction n as [|n IH]; [done|]. simpl. by rewrite IH. Qed.

(** After [n] rounds of adding and removing a vertex, with [n] a multiple
    of [2 ^ 64], the next vertex gets the id of the very first one. *)
Lemma minted_after_churns n :
  n ≠ 0%nat → size_wrap (N.of_nat n) = 0 →
  ¬ NoDup (minted (mjoin (replicate n (churn 1)) ++ [OpAddVertex 1 0]) DirectedGraph_new).
Proof.
  intros Hn Hwrap.
  assert (is_Some (run (mjoin (replicate n (churn 1)) ++ [OpAddVertex 1 0]) DirectedGraph_new))
    as [g' Hrun].
  { rewrite run_app, run_churns by done. simpl. unfold step.
    rewrite decide_True by apply lookup_empty. by eexists. }
  rewrite (minted_counter _ _ store_ok_new) by done.
  rewrite (length_minted_run _ _ _ Hrun), adds_app, adds_churns. simpl.
  rewrite Nat.add_1_r. simpl. rewrite NoDup_cons. intros [Hfirst _].
  apply Hfirst. apply list_elem_of_fmap. exists n. split.
  - by rewrite !N.add_0_l, Hwrap.
  - apply elem_of_seq. lia.
Qed.

(** C5, as stated, fails: [addVertex], [removeVertex], [2 ^ 64] times over,
    wraps the [size_t] counter, and the next [addVertex] returns a vertex
    with id [0], the id of the first vertex of the trace. *)
Lemma addVertex_id_reused_after_wrap : ¬ NoDup (minted wrap_trace DirectedGraph_new).
Proof.
  unfold wrap_trace. apply minted_after_churns.
  - intros H0. apply (f_equal N.of_nat) in H0. rewrite N2Nat.id in H0. discriminate H0.
  - rewrite N2Nat.id. unfold size_wrap. apply N.Div0.mod_same.
Qed.

(** C5, amended: as long as at most [2 ^ 64] calls of [addVertex] have
    returned, whatever other calls were made in between, the [i]-th of them
    returned a vertex with id [i], counting from 0: the ids are distinct,
    strictly increasing in call order, start at 0, and none is used twice,
    removals or not. *)
Theorem addVertex_ids_until_wrap (ops : list Op) :
  N.of_nat (length (minted ops DirectedGraph_new)) ≤ 2 ^ SIZE_BITS →
  minted ops DirectedGraph_new = N.of_nat <$> seq 0 (length (minted ops DirectedGraph_new)) ∧
  NoDup (minted ops DirectedGraph_new) ∧
  StronglySorted N.lt (minted ops DirectedGraph_new).
Proof.
  intros Hlen.
  assert (minted ops DirectedGraph_new
          = N.of_nat <$> seq 0 (length (minted ops DirectedGraph_new))) as Hids.
  { rewrite (minted_counter _ _ store_ok_new) at 1 by done.
    apply Forall_fmap_ext, Forall_forall. intros i Hi%elem_of_seq. simpl.
    rewrite N.add_0_l. apply size_wrap_small. lia. }
  split; [done|]. rewrite Hids. split.
  - apply NoDup_fmap_2; [apply _|apply NoDup_seq].
  - apply StronglySorted_of_nat_seq.
Qed.

(** ** Shared ids *)

Lemma twin_vertices_run n :
  size_wrap (1 + N.of_nat n) = 0 →
  run (twin_vertices n) DirectedGraph_new = Some twin_vertices_graph.
Proof.
  intros Hwrap. unfold twin_vertices. rewrite run_app.
  assert (run [OpAddVertex 1 0] DirectedGraph_new
          = Some (addVertex 1 0 DirectedGraph_new).2) as -> by done.
  cbv beta iota delta [mbind option_bind]. rewrite run_app, run_churns by done.
  change (m_vertexCounter (addVertex 1 0 DirectedGraph_new).2) with 1.
  rewrite Hwrap. vm_compute. reflexivity.
Qed.

(** Whatever order sorting leaves the two vertices with id 0 in, and
    whatever order the successor sets are listed in, the two graphs are laid
    out differently. *)
Lemma layouts_differ_on_shared_ids vs succs_a succs_b :
  vs ≡ₚ getVertices_const twin_vertices_graph →
  Sorted (id_order (heap twin_vertices_graph)) vs →
  (∀ u, succs_a u ≡ₚ elements (successors twin_graph_a u)) →
  (∀ u, succs_b u ≡ₚ elements (successors twin_graph_b u)) →
  layout twin_graph_a vs succs_a ≠ layout twin_graph_b vs succs_b.
Proof.
  intros Hperm Hsorted Ha Hb.
  set (h := heap twin_vertices_graph) in *.
  assert (getVertices_const twin_vertices_graph ≡ₚ [1; 2; 3; 4]) as Hvs.
  { apply NoDup_Permutation; [apply NoDup_getVertices_const| |].
    - apply (bool_decide_unpack _). vm_compute. exact I.
    - intros p. rewrite elem_of_getVertices_const. unfold owns. simpl.
      rewrite <- elem_of_dom, !dom_insert_L, dom_empty_L. set_solver. }
  rewrite Hvs in Hperm.
  assert (id_at h <$> vs = [0; 0; 1; 2]) as Hids.
  { apply (Sorted_unique N.le).
    - apply (Sorted_fmap _ (id_order h)); [|done].
      intros x y. by rewrite id_order_le.
    - repeat constructor; lia.
    - by rewrite Hperm. }
  assert (NoDup vs) as Hnd.
  { rewrite Hperm. apply (bool_decide_unpack _). vm_compute. exact I. }
  destruct vs as [|a [|b [|c [|d [|e vs]]]]]; try discriminate Hids.
  assert (∀ x, x ∈ [a; b; c; d] → x = 1 ∨ x = 2 ∨ x = 3 ∨ x = 4) as Hin.
  { intros x Hx. rewrite Hperm in Hx. set_solver. }
  pose proof (Ha 1) as A1. pose proof (Ha 2) as A2.
  pose proof (Ha 3) as A3. pose proof (Ha 4) as A4.
  pose proof (Hb 1) as B1. pose proof (Hb 2) as B2.
  pose proof (Hb 3) as B3. pose proof (Hb 4) as B4.
  vm_compute in A1, A2, A3, A4, B1, B2, B3, B4.
  apply Permutation_sym, Permutation_length_1_inv in A1, A2, B1, B2.
  apply Permutation_sym, Permutation_nil in A3, A4, B3, B4.
  destruct (Hin a ltac:(set_solver)) as [-> | [-> | [-> | ->]]];
    try (vm_compute in Hids; discriminate Hids);
  destruct (Hin b ltac:(set_solver)) as [-> | [-> | [-> | ->]]];
    try (vm_compute in Hids; discriminate Hids);
  destruct (Hin c ltac:(set_solver)) as [-> | [-> | [-> | ->]]];
    try (vm_compute in Hids; discriminate Hids);
  destruct (Hin d ltac:(set_solver)) as [-> | [-> | [-> | ->]]];
    try (vm_compute in Hids; discriminate Hids);
  try (apply (bool_decide_pack _) in Hnd; vm_compute in Hnd; by destruct Hnd).
  - unfold layout. cbn [fmap list_fmap]. rewrite A1, A2, A3, A4, B1, B2, B3, B4.
    vm_compute. intros Heq. discriminate Heq.
  - unfold layout. cbn [fmap list_fmap]. rewrite A1, A2, A3, A4, B1, B2, B3, B4.
    vm_compute. intros Heq. discriminate Heq.
Qed.

(** C2, as stated, fails on graphs in which two vertices share an id, which
    the wrap of the counter produces.  The two graphs below have the same
    vertices at the same addresses, ids 0, 0, 1, 2, and the id pairs 0 -> 1
    and 0 -> 2; in one the vertex at 1 has the edge to id 1, in the other the
    vertex at 2.  [toString] returns different strings on them, and so does
    every layout that visits the vertices of both graphs in the same sorted
    order: whichever of the two vertices with id 0 comes first, the two edge
    lines come out in opposite order. *)
Lemma toString_differs_on_shared_ids :
  run twin_trace_a DirectedGraph_new = Some twin_graph_a ∧
  run twin_trace_b DirectedGraph_new = Some twin_graph_b ∧
  vertex_ids twin_graph_a = vertex_ids twin_graph_b ∧
  edge_pairs twin_graph_a = edge_pairs twin_graph_b ∧
  toString twin_graph_a ≠ toString twin_graph_b ∧
  (∀ vs succs_a succs_b,
     vs ≡ₚ getVertices_const twin_vertices_graph →
     Sorted (id_order (heap twin_vertices_graph)) vs →
     (∀ u, succs_a u ≡ₚ elements (successors twin_graph_a u)) →
     (∀ u, succs_b u ≡ₚ elements (successors twin_graph_b u)) →
     layout twin_graph_a vs succs_a ≠ layout twin_graph_b vs succs_b).
Proof.
  assert (size_wrap (1 + N.of_nat (N.to_nat (2 ^ SIZE_BITS - 1))) = 0) as Hwrap.
  { rewrite N2Nat.id. vm_compute. reflexivity. }
  split; [|split].
  - unfold twin_trace_a. rewrite run_app, (twin_vertices_run _ Hwrap).
    vm_compute. reflexivity.
  - unfold twin_trace_b. rewrite run_app, (twin_vertices_run _ Hwrap).
    vm_compute. reflexivity.
  - split; [vm_compute; reflexivity|]. split; [vm_compute; reflexivity|].
    split; [vm_compute; intros Heq; discriminate Heq|].
    apply layouts_differ_on_shared_ids.
Qed.

(** C2, amended: on every reachable graph [toString] returns the header,
    the vertices in an order sorted by id, one line each, then for every
    vertex in that order one line per outgoing edge with the successors
    sorted by id, nothing for a vertex without outgoing edges.  When no two
    vertices share an id this is the rendering the specification describes, a
    function of the set of vertex ids and the set of directed id pairs, so
    two such graphs with the same two sets render the same, however they were
    built. *)
Theorem toString_sorted_deterministic (g1 g2 : DirectedGraph) :
  reachable g1 → reachable g2 →
  (∃ (vs : list ptr) (succs : ptr → list ptr),
     vs ≡ₚ getVertices_const g1 ∧ Sorted (id_order (heap g1)) vs ∧
     (∀ u, succs u ≡ₚ elements (successors g1 u) ∧ Sorted (id_order (heap g1)) (succs u)) ∧
     toString g1 = Some (layout g1 vs succs)) ∧
  (ids_unique g1 → ids_unique g2 →
   toString g1 = Some (spec_toString (vertex_ids g1) (edge_pairs g1)) ∧
   (vertex_ids g1 = vertex_ids g2 → edge_pairs g1 = edge_pairs g2 →
    toString g1 = toString g2)).
Proof.
  intros Hr1 Hr2.
  pose proof (reachable_store_ok _ Hr1) as Hok1.
  pose proof (reachable_edges_closed _ Hr1) as Hinv1.
  split.
  - exists (merge_sort (id_order (heap g1)) (getVertices_const g1)),
           (λ u, merge_sort (id_order (heap g1)) (elements (successors g1 u))).
    split; [apply merge_sort_Permutation|].
    split; [apply Sorted_merge_sort, id_order_total|].
    split; [|by apply toString_sorted_pointers].
    intros u. split; [apply merge_sort_Permutation|].
    apply Sorted_merge_sort, id_order_total.
  - intros Hu1 Hu2.
    pose proof (toString_spec g1 Hok1 Hinv1 Hu1) as H1.
    pose proof (toString_spec g2 (reachable_store_ok _ Hr2)
                  (reachable_edges_closed _ Hr2) Hu2) as H2.
    split; [done|]. intros HV HE. by rewrite H1, H2, HV, HE.
Qed.

(** ** The test of main.cpp *)

Lemma addEdge_new g u v :
  owns g u → owns g v → ¬ has_edge g u v →
  ∃ g', addEdge u v g = Some (true, g') ∧
        heap g' = heap g ∧ m_vertices g' = m_vertices g ∧
        ∀ w, successors g' w = if decide (u = w) then {[v]} ∪ successors g u else successors g w.
Proof.
  intros Hu Hv He. rewrite addEdge_defined by done. rewrite decide_False by done.
  eexists. split; [done|]. split; [done|]. split; [done|].
  intros w. rewrite successors_insert. case_decide; [done|].
  apply subscript_snd_default.
Qed.

Lemma addEdge_duplicate g u v :
  owns g u → owns g v → has_edge g u v → addEdge u v g = Some (false, g).
Proof.
  intros Hu Hv He. rewrite addEdge_defined by done. rewrite decide_True by done.
  apply has_edge_lookup in He as (s & Hs & _).
  rewrite (subscript_present _ _ _ Hs). simpl. by rewrite set_edges_id.
Qed.

Section scenario.
Variables p0 p1 p2 p3 : ptr.
Hypothesis distinct : NoDup [p0; p1; p2; p3].

Lemma scenario_distinct :
  p0 ≠ p1 ∧ p0 ≠ p2 ∧ p0 ≠ p3 ∧ p1 ≠ p2 ∧ p1 ≠ p3 ∧ p2 ≠ p3.
Proof using distinct.
  pose proof distinct as Hd. rewrite !NoDup_cons in Hd. set_solver.
Qed.

Lemma scenario_addVertex :
  let '(v0, graph) := addVertex p0 0 DirectedGraph_new in
  let '(v1, graph) := addVertex p1 1 graph in
  let '(v2, graph) := addVertex p2 2 graph in
  let '(v3, graph) := addVertex p3 3 graph in
  (v0, v1, v2, v3, graph) = (p0, p1, p2, p3, four_vertices p0 p1 p2 p3).
Proof using distinct.
  destruct scenario_distinct as (H01 & H02 & H03 & H12 & H13 & H23).
  rewrite addVertex_new_key by apply lookup_empty.
  rewrite addVertex_new_key by (simpl; by simplify_map_eq).
  rewrite addVertex_new_key by (simpl; by simplify_map_eq).
  rewrite addVertex_new_key by (simpl; by simplify_map_eq).
  done.
Qed.

Lemma scenario_run :
  run [OpAddVertex p0 0; OpAddVertex p1 1; OpAddVertex p2 2; OpAddVertex p3 3]
      DirectedGraph_new
  = Some (four_vertices p0 p1 p2 p3).
Proof using distinct.
  destruct scenario_distinct as (H01 & H02 & H03 & H12 & H13 & H23).
  assert (∀ g p data, heap g !! p = None → m_vertices g !! p = None →
            step (OpAddVertex p data) g
            = Some {| heap := <[p := mkVertex (m_vertexCounter g) data]> (heap g);
                      m_vertexCounter := size_wrap (m_vertexCounter g + 1);
                      m_vertices := <[p := p]> (m_vertices g);
                      m_edges := m_edges g |}) as Hstep.
  { intros g p data Hh Hm. apply step_Some. split; [done|]. simpl.
    by rewrite addVertex_new_key. }
  unfold run.
  rewrite Hstep by apply lookup_empty. simpl.
  rewrite Hstep by (simpl; by simplify_map_eq). simpl.
  rewrite Hstep by (simpl; by simplify_map_eq). simpl.
  rewrite Hstep by (simpl; by simplify_map_eq). done.
Qed.

Lemma scenario_reachable : reachable (four_vertices p0 p1 p2 p3).
Proof using distinct. eexists. apply scenario_run. Qed.

Lemma scenario_ids_unique : ids_unique (four_vertices p0 p1 p2 p3).
Proof using distinct.
  apply (run_ids_unique _ _ scenario_run). simpl. unfold SIZE_BITS. lia.
Qed.

Lemma scenario_owns p :
  owns (four_vertices p0 p1 p2 p3) p ↔ p = p0 ∨ p = p1 ∨ p = p2 ∨ p = p3.
Proof.
  unfold owns. simpl. rewrite <- elem_of_dom, !dom_insert_L, dom_empty_L. set_solver.
Qed.

Lemma scenario_ids :
  id_at (heap (four_vertices p0 p1 p2 p3)) p0 = 0 ∧
  id_at (heap (four_vertices p0 p1 p2 p3)) p1 = 1 ∧
  id_at (heap (four_vertices p0 p1 p2 p3)) p2 = 2 ∧
  id_at (heap (four_vertices p0 p1 p2 p3)) p3 = 3.
Proof using distinct.
  destruct scenario_distinct as (H01 & H02 & H03 & H12 & H13 & H23).
  unfold id_at. simpl. by simplify_map_eq.
Qed.

(** The five [addEdge] calls of the test, from the graph with the four
    vertices: their answers, and the graph they leave. *)
Lemma scenario_addEdge :
  ∃ g, ('(e1, graph) ← addEdge p0 p0 (four_vertices p0 p1 p2 p3);
        '(e2, graph) ← addEdge p0 p1 graph;
        '(e3, graph) ← addEdge p0 p3 graph;
        '(e4, graph) ← addEdge p2 p3 graph;
        '(e5, graph) ← addEdge p2 p3 graph;
        Some ([e1; e2; e3; e4; e5], graph))
       = Some ([true; true; true; true; false], g) ∧
       heap g = heap (four_vertices p0 p1 p2 p3) ∧
       m_vertices g = m_vertices (four_vertices p0 p1 p2 p3) ∧
       edges_closed g ∧
       ∀ w, successors g w =
              if decide (w = p0) then {[p0; p1; p3]}
              else if decide (w = p2) then {[p3]} else ∅.
Proof using distinct.
  destruct scenario_distinct as (H01 & H02 & H03 & H12 & H13 & H23).
  set (G := four_vertices p0 p1 p2 p3).
  assert (∀ g p, m_vertices g = m_vertices G → p ∈ [p0; p1; p2; p3] → owns g p) as Howns.
  { intros g p Hm Hp. unfold owns. rewrite Hm. apply scenario_owns. set_solver. }
  assert (∀ w, successors G w = ∅) as HsG by done.
  pose proof (reachable_edges_closed G scenario_reachable) as Hc4.
  destruct (addEdge_new G p0 p0) as (g5 & He1 & Hh5 & Hm5 & Hs5);
    [apply Howns; [done|set_solver]..| |].
  { unfold has_edge. rewrite HsG. set_solver. }
  pose proof (edges_closed_addEdge _ _ _ _ _ Hc4 He1) as Hc5.
  destruct (addEdge_new g5 p0 p1) as (g6 & He2 & Hh6 & Hm6 & Hs6);
    [apply Howns; [done|set_solver]..| |].
  { unfold has_edge. rewrite Hs5, decide_True, HsG by done. set_solver. }
  pose proof (edges_closed_addEdge _ _ _ _ _ Hc5 He2) as Hc6.
  rewrite Hm5 in Hm6. rewrite Hh5 in Hh6.
  destruct (addEdge_new g6 p0 p3) as (g7 & He3 & Hh7 & Hm7 & Hs7);
    [apply Howns; [done|set_solver]..| |].
  { unfold has_edge. rewrite Hs6, decide_True, Hs5, decide_True, HsG by done. set_solver. }
  pose proof (edges_closed_addEdge _ _ _ _ _ Hc6 He3) as Hc7.
  rewrite Hm6 in Hm7. rewrite Hh6 in Hh7.
  destruct (addEdge_new g7 p2 p3) as (g8 & He4 & Hh8 & Hm8 & Hs8);
    [apply Howns; [done|set_solver]..| |].
  { unfold has_edge. rewrite Hs7, decide_False, Hs6, decide_False, Hs5, decide_False, HsG
      by done. set_solver. }
  pose proof (edges_closed_addEdge _ _ _ _ _ Hc7 He4) as Hc8.
  rewrite Hm7 in Hm8. rewrite Hh7 in Hh8.
  assert (∀ w, successors g8 w =
                 if decide (w = p0) then {[p0; p1; p3]}
                 else if decide (w = p2) then {[p3]} else ∅) as Hs.
  { intros w. rewrite Hs8, !Hs7, !Hs6, !Hs5, !HsG.
    repeat case_decide; simplify_eq; set_solver. }
  assert (addEdge p2 p3 g8 = Some (false, g8)) as He5.
  { apply addEdge_duplicate; [apply Howns; [done|set_solver]..|].
    unfold has_edge. rewrite Hs. rewrite decide_False, decide_True by done. set_solver. }
  exists g8. rewrite He1. simpl. rewrite He2. simpl. rewrite He3. simpl.
  rewrite He4. simpl. rewrite He5. done.
Qed.
End scenario.

(** C1: the scenario of main.cpp.  Whatever four distinct addresses the
    allocator returns, the four vertices get the ids 0 to 3, the first four
    [addEdge] calls answer [true], the repeated [addEdge(2, 3)] answers
    [false], and [toString] returns the expected string. *)
Theorem test_DirectedGraph_setup_passes (p0 p1 p2 p3 : ptr) :
  NoDup [p0; p1; p2; p3] →
  ∃ graph,
    test_DirectedGraph_setup p0 p1 p2 p3
    = Some ([true; true; true; true; false], graph, expected) ∧
    id_at (heap graph) <$> [p0; p1; p2; p3] = [0; 1; 2; 3].
Proof.
  intros Hd.
  destruct (scenario_distinct p0 p1 p2 p3 Hd) as (H01 & H02 & H03 & H12 & H13 & H23).
  destruct (scenario_ids p0 p1 p2 p3 Hd) as (Hi0 & Hi1 & Hi2 & Hi3).
  destruct (scenario_addEdge p0 p1 p2 p3 Hd) as (g & Hedges & Hh & Hm & Hclosed & Hs).
  set (G := four_vertices p0 p1 p2 p3) in *.
  assert (store_ok g) as Hok.
  { unfold store_ok. rewrite Hh, Hm. apply (reachable_store_ok G), scenario_reachable, Hd. }
  assert (ids_unique g) as Huniq.
  { unfold ids_unique, getVertices_const. rewrite Hh, Hm. by apply scenario_ids_unique. }
  assert (vertex_ids g = {[0; 1; 2; 3]}) as HV.
  { assert (dom (m_vertices G) = {[p3]} ∪ ({[p2]} ∪ ({[p1]} ∪ {[p0]}))) as Hdom.
    { unfold G, four_vertices. simpl. rewrite !dom_insert_L, dom_empty_L. set_solver. }
    unfold vertex_ids. rewrite Hh, Hm, Hdom.
    rewrite !set_map_union_L, !set_map_singleton_L, Hi0, Hi1, Hi2, Hi3. set_solver. }
  assert (edge_pairs g = {[(0, 0); (0, 1); (0, 3); (2, 3)]}) as HE.
  { apply set_eq. intros [a b]. rewrite elem_of_edge_pairs, Hh. split.
    - intros (u & v & He & -> & ->). unfold has_edge in He. rewrite Hs in He.
      repeat case_decide; subst; [| |set_solver].
      + assert (v = p0 ∨ v = p1 ∨ v = p3) as [-> | [-> | ->]] by set_solver;
          rewrite ?Hi0, ?Hi1, ?Hi3; set_solver.
      + assert (v = p3) as -> by set_solver. rewrite Hi2, Hi3. set_solver.
    - intros Hab.
      assert ((a, b) = (0, 0) ∨ (a, b) = (0, 1) ∨ (a, b) = (0, 3) ∨ (a, b) = (2, 3))
        as [[= -> ->] | [[= -> ->] | [[= -> ->] | [= -> ->]]]] by set_solver.
      + exists p0, p0. unfold has_edge. rewrite Hs, decide_True by done. set_solver.
      + exists p0, p1. unfold has_edge. rewrite Hs, decide_True by done. set_solver.
      + exists p0, p3. unfold has_edge. rewrite Hs, decide_True by done. set_solver.
      + exists p2, p3. unfold has_edge.
        rewrite Hs, decide_False, decide_True by done. set_solver. }
  assert (toString g = Some expected) as Hstr.
  { rewrite toString_spec by done. rewrite HV, HE. vm_compute. reflexivity. }
  exists g. split.
  - unfold test_DirectedGraph_setup.
    pose proof (scenario_addVertex p0 p1 p2 p3 Hd) as Hadds.
    destruct (addVertex p0 0 DirectedGraph_new) as [v0 g1].
    destruct (addVertex p1 1 g1) as [v1 g2].
    destruct (addVertex p2 2 g2) as [v2 g3].
    destruct (addVertex p3 3 g3) as [v3 g4].
    injection Hadds as -> -> -> -> ->. fold G.
    destruct (addEdge p0 p0 G) as [[e1 g5]|]; simpl in *; [|done].
    destruct (addEdge p0 p1 g5) as [[e2 g6]|]; simpl in *; [|done].
    destruct (addEdge p0 p3 g6) as [[e3 g7]|]; simpl in *; [|done].
    destruct (addEdge p2 p3 g7) as [[e4 g8]|]; simpl in *; [|done].
    destruct (addEdge p2 p3 g8) as [[e5 g9]|]; simpl in *; [|done].
    injection Hedges as -> -> -> -> -> ->. by rewrite Hstr.
  - simpl. rewrite Hh. fold G. by rewrite Hi0, Hi1, Hi2, Hi3.
Qed.

(** * Further properties of the code *)

(** ** The vertex store *)

(** X1: on every reachable graph the vertices of the graph are exactly the
    vertices that are allocated, and every key of [m_vertices] is the address
    its [unique_ptr] holds: nothing is leaked, nothing owned dangles. *)
Theorem owned_vertices_are_live (g : DirectedGraph) (p : ptr) :
  reachable g →
  (owns g p ↔ is_Some (heap g !! p)) ∧
  (∀ owned, m_vertices g !! p = Some owned → owned = p).
Proof.
  intros Hreach. pose proof (reachable_store_ok g Hreach) as Hok. split.
  - symmetry. by apply store_ok_live.
  - intros owned. by apply store_ok_owned.
Qed.

(** ** addVertex *)


Lemma reachable_no_edge_to_unowned g w p : edges_closed g → ¬ owns g p → p ∉ successors g w.
Proof.
  intros Hinv Hp Hin. by destruct (has_edge_owns g w p Hinv Hin) as [_ ?].
Qed.

(** X2: [addVertex] on a reachable graph returns the address of the new
    vertex; that vertex belongs to the graph, carries the counter's value as
    id and [data] as payload, and has no edge in either direction, also when
    its address was a vertex's before.  The vertices the graph had are listed
    as before, with their ids and payloads, and every successor set is what
    it was. *)
Theorem addVertex_adds_isolated_vertex (g : DirectedGraph) (p : ptr) (data : Z) :
  reachable g → heap g !! p = None →
  fst (addVertex p data g) = p ∧
  reachable (snd (addVertex p data g)) ∧
  heap (snd (addVertex p data g)) !! p = Some (mkVertex (m_vertexCounter g) data) ∧
  getVertices_const (snd (addVertex p data g)) ≡ₚ p :: getVertices_const g ∧
  (∀ q, q ≠ p → heap (snd (addVertex p data g)) !! q = heap g !! q) ∧
  (∀ w, successors (snd (addVertex p data g)) w = successors g w) ∧
  successors (snd (addVertex p data g)) p = ∅ ∧
  (∀ w, p ∉ successors (snd (addVertex p data g)) w).
Proof.
  intros Hreach Hp.
  pose proof (reachable_store_ok g Hreach) as Hok.
  pose proof (reachable_edges_closed g Hreach) as Hinv.
  assert (¬ owns g p) as Hunowned.
  { rewrite <- (store_ok_live g p Hok), Hp. by intros []. }
  assert (reachable (snd (addVertex p data g))) as Hreach'.
  { destruct Hreach as [ops Hrun]. exists (ops ++ [OpAddVertex p data]).
    rewrite run_app, Hrun. simpl. unfold step. by rewrite decide_True. }
  rewrite addVertex_fresh in * by done. simpl.
  split_and!; try done.
  - apply lookup_insert_eq.
  - unfold getVertices_const. simpl.
    rewrite map_to_list_insert; [done|].
    apply eq_None_not_Some. exact Hunowned.
  - intros q Hq. by rewrite lookup_insert_ne.
  - change (successors g p = ∅). by apply unowned_no_successors.
  - intros w. change (p ∉ successors g w). by apply reachable_no_edge_to_unowned.
Qed.


(** ** Edges *)

Lemma addEdge_counter g u v b g' :
  addEdge u v g = Some (b, g') → m_vertexCounter g' = m_vertexCounter g.
Proof.
  intros Hadd. apply (exec_counter (OpAddEdge u v)). simpl. by rewrite Hadd.
Qed.

(** X4: [addEdge] returns exactly when both arguments are vertices of the
    graph (otherwise an [assert] fails); whenever it returns, the edge exists
    afterwards, the answer is [true] exactly when it did not exist before,
    and the vertices are untouched. *)
Theorem addEdge_returns_iff_owned (g : DirectedGraph) (u v : ptr) :
  (is_Some (addEdge u v g) ↔ owns g u ∧ owns g v) ∧
  (∀ b g', addEdge u v g = Some (b, g') →
     b = bool_decide (¬ has_edge g u v) ∧ has_edge g' u v ∧
     heap g' = heap g ∧ m_vertices g' = m_vertices g).
Proof.
  split.
  - split.
    + intros [r Hr]. destruct (decide (owns g u ∧ owns g v)) as [|Hn]; [done|].
      by rewrite addEdge_aborts in Hr.
    + intros [Hu Hv]. rewrite addEdge_defined by done. case_decide; by eexists.
  - intros b g' Hadd.
    destruct (decide (owns g u ∧ owns g v)) as [[Hu Hv]|Hn];
      [|by rewrite addEdge_aborts in Hadd].
    rewrite addEdge_defined in Hadd by done. case_decide as He; simplify_eq.
    + rewrite bool_decide_eq_false_2 by tauto. split_and!; try done.
      unfold has_edge. by rewrite successors_subscript.
    + rewrite bool_decide_eq_true_2 by done. split_and!; try done.
      unfold has_edge. rewrite successors_insert, decide_True by done. set_solver.
Qed.

(** X5: adding an edge that was missing and removing it again gives back a
    graph with the same vertices and edges and the same rendering; so does
    removing an edge that was there and adding it again. *)
Theorem addEdge_removeEdge_roundtrip (g : DirectedGraph) (u v : ptr) :
  owns g u → owns g v →
  (¬ has_edge g u v →
     ∃ g1 g2, addEdge u v g = Some (true, g1) ∧ removeEdge u v g1 = (true, g2) ∧
              same_graph g g2 ∧ toString g2 = toString g) ∧
  (has_edge g u v →
     ∃ g1 g2, removeEdge u v g = (true, g1) ∧ addEdge u v g1 = Some (true, g2) ∧
              same_graph g g2 ∧ toString g2 = toString g).
Proof.
  intros Hu Hv. split.
  - intros He. destruct (addEdge_new g u v Hu Hv He) as (g1 & Hadd & Hh & Hm & Hs).
    assert (owns g1 u ∧ owns g1 v) as Howns by (unfold owns; by rewrite Hm).
    assert (has_edge g1 u v) as He1.
    { unfold has_edge. rewrite Hs, decide_True by done. set_solver. }
    exists g1. eexists. split; [done|].
    rewrite removeEdge_defined, decide_True, decide_True by done.
    split; [done|].
    assert (same_graph g (set_edges g1 (<[u:=successors g1 u ∖ {[v]}]>
                                          (subscript u (m_edges g1)).2))) as Hsame.
    { split_and!; simpl; try done.
      - by rewrite <- (addEdge_counter _ _ _ _ _ Hadd).
      - intros w. rewrite successors_insert, subscript_snd_default.
        fold (successors g1 w). rewrite !Hs. rewrite (decide_True (P := u = u)) by done.
        unfold has_edge in He. case_decide; [subst w|done]. set_solver. }
    split; [done|]. by apply toString_same_graph.
  - intros He.
    set (g1 := set_edges g (<[u:=successors g u ∖ {[v]}]> (subscript u (m_edges g)).2)).
    assert (removeEdge u v g = (true, g1)) as Hrem.
    { by rewrite removeEdge_defined, decide_True, decide_True by done. }
    assert (∀ w, successors g1 w
                 = if decide (u = w) then successors g u ∖ {[v]} else successors g w) as Hs1.
    { intros w. unfold g1. rewrite successors_insert, subscript_snd_default. done. }
    assert (¬ has_edge g1 u v) as He1.
    { unfold has_edge. rewrite Hs1, decide_True by done. set_solver. }
    destruct (addEdge_new g1 u v Hu Hv He1) as (g2 & Hadd & Hh & Hm & Hs).
    assert (same_graph g g2) as Hsame.
    { split_and!; try done.
      - by rewrite (addEdge_counter _ _ _ _ _ Hadd).
      - intros w. rewrite Hs, !Hs1.
        rewrite (decide_True (P := u = u)) by done.
        unfold has_edge in He. case_decide; [subst w|done].
        apply set_eq. intros x. destruct (decide (x = v)); set_solver. }
    exists g1, g2. split; [done|]. split; [done|]. split; [done|].
    by apply toString_same_graph.
Qed.

Lemma subscript_twice k m :
  subscript k (subscript k m).2 = (default ∅ (m !! k), (subscript k m).2).
Proof. apply subscript_present. by rewrite subscript_snd_lookup, decide_True. Qed.

(** X6: removing twice is removing once: after [removeVertex(u)] a second
    [removeVertex(u)] answers [false] and returns the graph it was given,
    and the same holds for [removeEdge(u, v)], whatever the first call
    answered. *)
Theorem removal_twice_is_once (g : DirectedGraph) (u v : ptr) :
  removeVertex u (snd (removeVertex u g)) = (false, snd (removeVertex u g)) ∧
  removeEdge u v (snd (removeEdge u v g)) = (false, snd (removeEdge u v g)).
Proof.
  split.
  - apply removeVertex_unowned. unfold removeVertex, owns.
    destruct (m_vertices g !! u) as [owned|] eqn:Hu; simpl.
    + rewrite lookup_delete_eq. by intros [].
    + rewrite Hu. by intros [].
  - rewrite (removeEdge_defined g). case_decide as Howns; simpl.
    + assert (∀ edges, owns (set_edges g edges) u ∧ owns (set_edges g edges) v) as Howns'
        by done.
      assert (∀ s, subscript u (<[u:=s]> (subscript u (m_edges g)).2)
                   = (s, <[u:=s]> (subscript u (m_edges g)).2)) as Hsub.
      { intros s. apply subscript_present, lookup_insert_eq. }
      case_decide as He; simpl.
      * rewrite removeEdge_defined, decide_True by apply Howns'.
        rewrite decide_False.
        2:{ unfold has_edge. rewrite successors_insert, decide_True by done. set_solver. }
        f_equal. unfold set_edges. simpl. by rewrite Hsub.
      * rewrite removeEdge_defined, decide_True by apply Howns'.
        rewrite decide_False.
        2:{ unfold has_edge. by rewrite successors_subscript. }
        f_equal. unfold set_edges. simpl. by rewrite subscript_twice.
    + by rewrite removeEdge_defined, decide_False.
Qed.

(** X7: on a reachable graph every edge runs between two vertices of the
    graph: whatever [getSuccessors(u)] returns, in either overload, is listed
    by [getVertices], and so is [u] when anything is returned at all. *)
Theorem successors_are_vertices (g : DirectedGraph) (u v : ptr) :
  reachable g →
  v ∈ fst (getSuccessors u g) ∨ v ∈ getSuccessors_const u g →
  u ∈ getVertices_const g ∧ v ∈ getVertices_const g ∧
  u ∈ fst (getVertices g) ∧ v ∈ fst (getVertices g).
Proof.
  intros Hreach Hv.
  assert (has_edge g u v) as He.
  { destruct Hv as [Hv|Hv];
      [by apply elem_of_getSuccessors|by apply elem_of_getSuccessors_const]. }
  destruct (has_edge_owns g u v (reachable_edges_closed g Hreach) He) as [Hu Hv'].
  rewrite (getVertices_keys g (reachable_store_ok g Hreach)).
  by rewrite !elem_of_getVertices_const.
Qed.

(** ** What a call leaves alone *)

Lemma addEdge_keeps_vertices g u v b g' :
  addEdge u v g = Some (b, g') → heap g' = heap g ∧ m_vertices g' = m_vertices g.
Proof.
  intros Hadd.
  destruct (decide (owns g u ∧ owns g v)) as [[Hu Hv]|Hn];
    [|by rewrite addEdge_aborts in Hadd].
  rewrite addEdge_defined in Hadd by done. by case_decide; simplify_eq.
Qed.





(** ** The payload *)

Section merge_sort_ext.
Context {A : Type} (R1 R2 : relation A).
Context `{∀ x y, Decision (R1 x y)} `{∀ x y, Decision (R2 x y)}.
Hypothesis same_order : ∀ x y, R1 x y ↔ R2 x y.

Lemma list_merge_ext l1 l2 : list_merge R1 l1 l2 = list_merge R2 l1 l2.
Proof using same_order.
  revert l2. induction l1 as [|x1 l1 IH1]; intros l2; [by destruct l2|].
  induction l2 as [|x2 l2 IH2]; [done|]. simpl.
  destruct (decide (R1 x1 x2)) as [Hr|Hr], (decide (R2 x1 x2)) as [Hr'|Hr'];
    try (exfalso; naive_solver); f_equal; [apply IH1|apply IH2].
Qed.

Lemma merge_list_to_stack_ext st l :
  merge_list_to_stack R1 st l = merge_list_to_stack R2 st l.
Proof using same_order.
  revert l. induction st as [|[l'|] st IH]; intros l; simpl; [done| |done].
  by rewrite list_merge_ext, IH.
Qed.

Lemma merge_stack_ext st : merge_stack R1 st = merge_stack R2 st.
Proof using same_order.
  induction st as [|[l'|] st IH]; simpl; [done| |done].
  by rewrite IH, list_merge_ext.
Qed.

Lemma merge_sort_ext l : merge_sort R1 l = merge_sort R2 l.
Proof using same_order.
  unfold merge_sort. generalize (@nil (option (list A))).
  induction l as [|x l IH]; intros st; simpl; [apply merge_stack_ext|].
  by rewrite merge_list_to_stack_ext, IH.
Qed.
End merge_sort_ext.

(** [toString] reads the ids of the vertices and nothing else of them. *)
Lemma toString_ids g g' :
  m_vertices g' = m_vertices g → m_edges g' = m_edges g →
  (∀ p, Vertex_getID <$> heap g' !! p = Vertex_getID <$> heap g !! p) →
  toString g' = toString g.
Proof.
  intros Hm He Hids.
  assert (∀ p, id_at (heap g') p = id_at (heap g) p) as Hid.
  { intros p. unfold id_at. specialize (Hids p).
    destruct (heap g' !! p), (heap g !! p); simpl in *; congruence. }
  assert (∀ p, is_Some (heap g' !! p) ↔ is_Some (heap g !! p)) as Hlive.
  { intros p. by rewrite <- !(fmap_is_Some Vertex_getID), Hids. }
  assert (∀ vs, toSortedVertices (heap g') vs = toSortedVertices (heap g) vs) as Hsort.
  { intros vs. unfold toSortedVertices.
    rewrite (merge_sort_ext (id_order (heap g')) (id_order (heap g))).
    - repeat case_decide; try done; exfalso; rewrite Forall_forall in *; naive_solver.
    - intros x y. by rewrite !id_order_le, !Hid. }
  assert (∀ p vx vx', heap g' !! p = Some vx' → heap g !! p = Some vx →
            Vertex_toString vx' = Vertex_toString vx) as Hstr.
  { intros p vx vx' H1 H2. specialize (Hids p). rewrite H1, H2 in Hids.
    unfold Vertex_toString. simpl in Hids. unfold Vertex_getID in Hids. congruence. }
  assert (∀ s v, print_vertex (heap g') s v = print_vertex (heap g) s v) as Hpv.
  { intros s v. unfold print_vertex. pose proof (Hstr v) as Hv. pose proof (Hlive v) as Hl.
    destruct (heap g' !! v) as [vx'|], (heap g !! v) as [vx|]; simpl; try done.
    - by rewrite (Hv vx vx').
    - by destruct (proj1 Hl (mk_is_Some _ _ eq_refl)).
    - by destruct (proj2 Hl (mk_is_Some _ _ eq_refl)). }
  assert (∀ u s v, print_edge (heap g') u s v = print_edge (heap g) u s v) as Hpe.
  { intros u s v. unfold print_edge.
    pose proof (Hstr u) as Hu. pose proof (Hlive u) as Hlu.
    pose proof (Hstr v) as Hv. pose proof (Hlive v) as Hlv.
    destruct (heap g' !! u) as [ux'|], (heap g !! u) as [ux|]; simpl;
      [|by destruct (proj1 Hlu (mk_is_Some _ _ eq_refl))
       |by destruct (proj2 Hlu (mk_is_Some _ _ eq_refl))|done].
    destruct (heap g' !! v) as [vx'|], (heap g !! v) as [vx|]; simpl;
      [|by destruct (proj1 Hlv (mk_is_Some _ _ eq_refl))
       |by destruct (proj2 Hlv (mk_is_Some _ _ eq_refl))|done].
    by rewrite (Hu ux ux'), (Hv vx vx'). }
  unfold toString, getVertices_const. rewrite Hm, Hsort.
  destruct (toSortedVertices _ _) as [sortedVertices|]; simpl; [|done].
  rewrite (for_each_ext (print_vertex (heap g')) (print_vertex (heap g))) by (intros; apply Hpv).
  destruct (for_each (print_vertex _) _ _) as [s|]; simpl; [|done].
  apply for_each_ext. intros s' u _. unfold print_edges_of. rewrite He, Hsort.
  destruct (contains u (m_edges g)); [|done].
  destruct (toSortedVertices _ _); simpl; [|done].
  apply for_each_ext. intros; apply Hpe.
Qed.

(** X10: [u->setData(data)] on a vertex of the graph makes [getData] return
    [data] on it and changes nothing else: the id of [u], the other
    vertices, what [getVertices] and [getSuccessors] return and the rendering
    of [toString] are what they were.  The payload is no part of what
    [toString] prints. *)
Theorem setData_changes_payload_only (g : DirectedGraph) (u : ptr) (data : Z) (vx : Vertex) :
  heap g !! u = Some vx →
  ∃ g', exec (OpSetData u data) g = Some g' ∧
        Vertex_getData <$> heap g' !! u = Some data ∧
        Vertex_getID <$> heap g' !! u = Some (Vertex_getID vx) ∧
        (∀ q, q ≠ u → heap g' !! q = heap g !! q) ∧
        getVertices_const g' = getVertices_const g ∧
        (∀ w, getSuccessors_const w g' = getSuccessors_const w g) ∧
        toString g' = toString g.
Proof.
  intros Hu. simpl. rewrite Hu. simpl. eexists. split; [done|]. simpl.
  split_and!; try done.
  - by rewrite lookup_insert_eq.
  - by rewrite lookup_insert_eq.
  - intros q Hq. by rewrite lookup_insert_ne.
  - apply toString_ids; simpl; try done. intros p.
    destruct (decide (u = p)) as [<-|Hne].
    + by rewrite lookup_insert_eq, Hu.
    + by rewrite lookup_insert_ne.
Qed.

(** ** Identity *)

(** X11: a vertex prints as ["v"] followed by its id in decimal, so two
    vertices print the same exactly when [operator==] holds between them,
    whatever their payloads. *)
Theorem Vertex_toString_iff_equal (a b : Vertex) :
  Vertex_toString a = Vertex_toString b ↔ Vertex_eqb a b = true.
Proof.
  unfold Vertex_toString, Vertex_eqb, Vertex_getID. rewrite bool_decide_eq_true. split.
  - intros Heq. apply String.app_inj in Heq. by apply pretty_N_inj in Heq.
  - by intros ->.
Qed.

(** X12: in a reachable graph whose vertices carry distinct ids,
    [operator==] on two vertices of the graph holds exactly when they are the
    same vertex: comparing vertices and comparing handles agree. *)
Theorem equal_vertices_are_one_vertex (g : DirectedGraph) (p q : ptr) (vp vq : Vertex) :
  reachable g → ids_unique g →
  heap g !! p = Some vp → heap g !! q = Some vq →
  (Vertex_eqb vp vq = true ↔ p = q).
Proof.
  intros Hreach Huniq Hp Hq. pose proof (reachable_store_ok g Hreach) as Hok.
  unfold Vertex_eqb. rewrite bool_decide_eq_true. split.
  - intros Hid. apply (ids_unique_inj g); [done| | |].
    + apply (store_ok_live g p Hok). by eexists.
    + apply (store_ok_live g q Hok). by eexists.
    + unfold id_at. by rewrite Hp, Hq.
  - intros ->. congruence.
Qed.

(** ** The ids of the vertices of a graph *)


(** ** Reading a rendering back *)

Lemma append_cons c s t : String.append (String c s) t = String c (String.append s t).
Proof. done. Qed.

(** A text is cut in one way only at the first occurrence of a character. *)
Lemma split_at_char c a a' r r' :
  all_chars (λ x, x ≠ c) a → all_chars (λ x, x ≠ c) a' →
  String.append a (String c r) = String.append a' (String c r') →
  a = a' ∧ r = r'.
Proof.
  revert a'. induction a as [|x a IH]; intros [|x' a'] Ha Ha' Heq.
  - by injection Heq as ->.
  - rewrite append_cons in Heq. injection Heq as <- _. by destruct Ha' as [? _].
  - rewrite append_cons in Heq. injection Heq as -> _. by destruct Ha as [? _].
  - rewrite !append_cons in Heq. injection Heq as -> Heq.
    destruct Ha as [_ Ha], Ha' as [_ Ha'].
    destruct (IH a' Ha Ha' Heq) as [-> ->]. done.
Qed.

Lemma all_chars_impl (P Q : Ascii.ascii → Prop) s :
  (∀ c, P c → Q c) → all_chars P s → all_chars Q s.
Proof. intros HPQ. induction s as [|c s IH]; simpl; [done|]. naive_solver. Qed.

Lemma pretty_N_char_digit x : is_digit (pretty_N_char x).
Proof. unfold pretty_N_char, is_digit. repeat case_match; vm_compute; by split. Qed.

Lemma pretty_N_go_digits x s : all_chars is_digit s → all_chars is_digit (pretty_N_go x s).
Proof.
  revert s. induction (N.lt_wf_0 x) as [x _ IH]; intros s Hs.
  destruct (decide (x = 0)) as [->|Hx]; [by rewrite pretty_N_go_0|].
  rewrite pretty_N_go_step by lia. apply IH.
  - apply N.div_lt; lia.
  - split; [apply pretty_N_char_digit|done].
Qed.

(** [std::to_string] of a [size_t] is made of digits. *)
Lemma pretty_N_digits (x : N) : all_chars is_digit (pretty x).
Proof.
  unfold pretty, pretty_N. case_decide.
  - split; [|done]. vm_compute. by split.
  - by apply pretty_N_go_digits.
Qed.

Lemma pretty_N_without c (x : N) :
  ¬ is_digit c → all_chars (λ y, y ≠ c) (pretty x).
Proof.
  intros Hc. apply (all_chars_impl is_digit); [|apply pretty_N_digits].
  intros y Hy ->. done.
Qed.

Lemma below_digits c : Ascii.N_of_ascii c < 48 → ¬ is_digit c.
Proof. unfold is_digit. lia. Qed.

Lemma flatten_app l1 l2 :
  flatten (l1 ++ l2) = String.append (flatten l1) (flatten l2).
Proof.
  induction l1 as [|x l1 IH]; [done|].
  change (String.append x (flatten (l1 ++ l2))
          = String.append (String.append x (flatten l1)) (flatten l2)).
  by rewrite IH, append_assoc.
Qed.

Lemma vertex_line_inj id id' X X' :
  String.append (vertex_line id) X = String.append (vertex_line id') X' →
  id = id' ∧ X = X'.
Proof.
  unfold vertex_line. rewrite !append_assoc. intros Heq.
  do 2 apply String.app_inj in Heq.
  apply split_at_char in Heq as [Hid ->].
  - split; [by apply pretty_N_inj|done].
  - apply pretty_N_without, below_digits. vm_compute. reflexivity.
  - apply pretty_N_without, below_digits. vm_compute. reflexivity.
Qed.

Lemma edge_line_inj u v u' v' X X' :
  String.append (edge_line u v) X = String.append (edge_line u' v') X' →
  u = u' ∧ v = v' ∧ X = X'.
Proof.
  unfold edge_line. rewrite !append_assoc. intros Heq.
  do 2 apply String.app_inj in Heq.
  apply split_at_char in Heq as [Hu Heq].
  2,3: apply pretty_N_without, below_digits; vm_compute; reflexivity.
  injection Heq as Heq. apply String.app_inj in Heq.
  change (String.append (pretty v) (String nl_char X)
          = String.append (pretty v') (String nl_char X')) in Heq.
  apply split_at_char in Heq as [Hv ->].
  2,3: apply pretty_N_without, below_digits; vm_compute; reflexivity.
  split; [by apply pretty_N_inj|]. split; [by apply pretty_N_inj|done].
Qed.

Lemma vertex_section_inj ids ids' r r' :
  String.append (flatten (vertex_line <$> ids)) (String.append "  edges:" (String.append nl r))
  = String.append (flatten (vertex_line <$> ids')) (String.append "  edges:" (String.append nl r')) →
  ids = ids' ∧ r = r'.
Proof.
  revert ids'. induction ids as [|id ids IH]; intros [|id' ids'] Heq.
  - split; [done|]. by do 3 apply String.app_inj in Heq.
  - exfalso. rewrite fmap_cons in Heq.
    change (flatten (vertex_line id' :: (vertex_line <$> ids')))
      with (String.append (vertex_line id') (flatten (vertex_line <$> ids'))) in Heq.
    unfold vertex_line in Heq. rewrite !append_assoc in Heq.
    rewrite !append_cons in Heq. discriminate Heq.
  - exfalso. rewrite fmap_cons in Heq.
    change (flatten (vertex_line id :: (vertex_line <$> ids)))
      with (String.append (vertex_line id) (flatten (vertex_line <$> ids))) in Heq.
    unfold vertex_line in Heq. rewrite !append_assoc in Heq.
    rewrite !append_cons in Heq. discriminate Heq.
  - rewrite !fmap_cons in Heq.
    change (flatten (vertex_line id :: (vertex_line <$> ids)))
      with (String.append (vertex_line id) (flatten (vertex_line <$> ids))) in Heq.
    change (flatten (vertex_line id' :: (vertex_line <$> ids')))
      with (String.append (vertex_line id') (flatten (vertex_line <$> ids'))) in Heq.
    rewrite !(append_assoc (vertex_line _)) in Heq.
    apply vertex_line_inj in Heq as [-> Heq].
    destruct (IH ids' Heq) as [-> ->]. done.
Qed.

Lemma edge_section_inj (ps ps' : list (N * N)) :
  flatten ((λ e, edge_line e.1 e.2) <$> ps) = flatten ((λ e, edge_line e.1 e.2) <$> ps') →
  ps = ps'.
Proof.
  revert ps'. induction ps as [|[u v] ps IH]; intros [|[u' v'] ps'] Heq; [done| | |].
  - exfalso. rewrite fmap_cons in Heq.
    change (flatten [] = String.append (edge_line u' v')
                           (flatten ((λ e, edge_line e.1 e.2) <$> ps'))) in Heq.
    unfold edge_line in Heq. rewrite !append_cons in Heq. discriminate Heq.
  - exfalso. rewrite fmap_cons in Heq.
    change (String.append (edge_line u v) (flatten ((λ e, edge_line e.1 e.2) <$> ps))
            = flatten []) in Heq.
    unfold edge_line in Heq. rewrite !append_cons in Heq. discriminate Heq.
  - rewrite !fmap_cons in Heq.
    change (String.append (edge_line u v) (flatten ((λ e, edge_line e.1 e.2) <$> ps))
            = String.append (edge_line u' v') (flatten ((λ e, edge_line e.1 e.2) <$> ps')))
      in Heq.
    apply edge_line_inj in Heq as (-> & -> & Heq). by rewrite (IH ps' Heq).
Qed.

Lemma edge_section_printed_pairs V E :
  flatten ((λ u, flatten (edge_line u <$> merge_sort N.le (elements (spec_successors E u))))
           <$> merge_sort N.le (elements V))
  = flatten ((λ e, edge_line e.1 e.2) <$> printed_pairs V E).
Proof.
  unfold printed_pairs. induction (merge_sort N.le (elements V)) as [|u us IH]; [done|].
  rewrite fmap_cons, bind_cons, fmap_app, flatten_app, <- IH, <- list_fmap_compose. done.
Qed.

Lemma elem_of_printed_pairs V E a b :
  (a, b) ∈ printed_pairs V E ↔ a ∈ V ∧ (a, b) ∈ E.
Proof.
  unfold printed_pairs. rewrite list_elem_of_bind. split.
  - intros (u & Hab & Hu). apply list_elem_of_fmap in Hab as (v & [= -> ->] & Hv).
    rewrite elem_of_merge_sort, elem_of_elements in Hu, Hv.
    split; [done|]. unfold spec_successors in Hv.
    apply elem_of_map in Hv as ([a' b'] & -> & [Ha He]%elem_of_filter).
    simpl in *. by subst.
  - intros [Ha He]. exists a. split.
    + apply list_elem_of_fmap. exists b. split; [done|].
      rewrite elem_of_merge_sort, elem_of_elements. unfold spec_successors.
      apply elem_of_map. exists (a, b). split; [done|]. by apply elem_of_filter.
    + by rewrite elem_of_merge_sort, elem_of_elements.
Qed.

(** The rendering tells the vertex ids and the id pairs it prints. *)
Lemma spec_toString_inj V E V' E' :
  spec_toString V E = spec_toString V' E' →
  V = V' ∧ printed_pairs V E = printed_pairs V' E'.
Proof.
  unfold spec_toString. intros Heq. do 4 apply String.app_inj in Heq.
  apply vertex_section_inj in Heq as [Hsorted Hedges].
  rewrite !edge_section_printed_pairs in Hedges.
  apply edge_section_inj in Hedges. split; [|done].
  apply set_eq. intros x.
  rewrite <- (elem_of_elements V), <- (elem_of_elements V').
  rewrite <- (elem_of_merge_sort N.le (elements V)).
  rewrite <- (elem_of_merge_sort N.le (elements V')). by rewrite Hsorted.
Qed.

Lemma edge_source_in_vertex_ids g a b :
  edges_closed g → (a, b) ∈ edge_pairs g → a ∈ vertex_ids g.
Proof.
  intros Hinv (u & v & He & -> & _)%elem_of_edge_pairs.
  destruct (has_edge_owns g u v Hinv He) as [Hu _].
  unfold vertex_ids. apply elem_of_map. exists u. split; [done|]. by apply elem_of_dom.
Qed.

(** X14: [toString] loses nothing of the graph's shape.  Two reachable
    graphs whose vertices carry distinct ids and which render the same hold
    the same set of vertex ids and the same set of directed id pairs. *)
Theorem toString_tells_the_graph (g1 g2 : DirectedGraph) :
  reachable g1 → ids_unique g1 → reachable g2 → ids_unique g2 →
  toString g1 = toString g2 →
  vertex_ids g1 = vertex_ids g2 ∧ edge_pairs g1 = edge_pairs g2.
Proof.
  intros Hr1 Hu1 Hr2 Hu2 Heq.
  pose proof (reachable_edges_closed _ Hr1) as Hc1.
  pose proof (reachable_edges_closed _ Hr2) as Hc2.
  rewrite (toString_spec g1), (toString_spec g2) in Heq
    by (done || by apply reachable_store_ok).
  apply (inj Some) in Heq. apply spec_toString_inj in Heq as [HV HP].
  split; [done|]. apply set_eq. intros [a b]. split; intros Hab.
  - assert ((a, b) ∈ printed_pairs (vertex_ids g1) (edge_pairs g1)) as Hin.
    { apply elem_of_printed_pairs. split; [|done]. by eapply edge_source_in_vertex_ids. }
    rewrite HP in Hin. by apply elem_of_printed_pairs in Hin as [_ ?].
  - assert ((a, b) ∈ printed_pairs (vertex_ids g2) (edge_pairs g2)) as Hin.
    { apply elem_of_printed_pairs. split; [|done]. by eapply edge_source_in_vertex_ids. }
    rewrite <- HP in Hin. by apply elem_of_printed_pairs in Hin as [_ ?].
Qed.

(** X15: every vertex and every edge is printed once.  On a reachable
    graph whose vertices carry distinct ids, [toString] is the header, one
    line for every vertex id, and one line for every id pair of the graph;
    no id and no pair comes twice, and nothing else is printed. *)
Theorem toString_prints_each_once (g : DirectedGraph) :
  reachable g → ids_unique g →
  toString g
  = Some ("DirectedGraph:" +:+ nl +:+ "  vertices:" +:+ nl
          +:+ flatten (vertex_line <$> merge_sort N.le (elements (vertex_ids g)))
          +:+ "  edges:" +:+ nl
          +:+ flatten ((λ e, edge_line e.1 e.2)
                       <$> printed_pairs (vertex_ids g) (edge_pairs g)))%string ∧
  NoDup (merge_sort N.le (elements (vertex_ids g))) ∧
  NoDup (printed_pairs (vertex_ids g) (edge_pairs g)) ∧
  (∀ a, a ∈ merge_sort N.le (elements (vertex_ids g)) ↔ a ∈ vertex_ids g) ∧
  (∀ a b, (a, b) ∈ printed_pairs (vertex_ids g) (edge_pairs g) ↔ (a, b) ∈ edge_pairs g).
Proof.
  intros Hreach Huniq.
  pose proof (reachable_edges_closed _ Hreach) as Hinv.
  split_and!.
  - rewrite toString_spec by (done || by apply reachable_store_ok).
    unfold spec_toString. by rewrite edge_section_printed_pairs.
  - rewrite merge_sort_Permutation. apply NoDup_elements.
  - unfold printed_pairs. apply NoDup_bind.
    + intros u1 u2 [a b] _ _ (v1 & [= -> ->] & _)%list_elem_of_fmap
        (v2 & [= -> _] & _)%list_elem_of_fmap. done.
    + intros u _. apply NoDup_fmap_2; [by intros ?? [= ->]|].
      rewrite merge_sort_Permutation. apply NoDup_elements.
    + rewrite merge_sort_Permutation. apply NoDup_elements.
  - intros a. by rewrite elem_of_merge_sort, elem_of_elements.
  - intros a b. rewrite elem_of_printed_pairs. split; [by intros [_ ?]|].
    intros Hab. split; [|done]. by eapply edge_source_in_vertex_ids.
Qed.

(** ** Order of calls *)

Lemma addEdge_successors g u v b g' :
  addEdge u v g = Some (b, g') →
  ∀ w, successors g' w = if decide (u = w) then {[v]} ∪ successors g u else successors g w.
Proof.
  intros Hadd w.
  destruct (decide (owns g u ∧ owns g v)) as [[Hu Hv]|Hn];
    [|by rewrite addEdge_aborts in Hadd].
  rewrite addEdge_defined in Hadd by done. case_decide as He; simplify_eq.
  - rewrite successors_subscript. unfold has_edge in He. case_decide; [subst w|done].
    set_solver.
  - rewrite successors_insert. case_decide; [done|]. apply subscript_snd_default.
Qed.

(** X16: the order of two [addEdge] calls does not matter.  On vertices of
    the graph both orders return, and they leave graphs with the same
    vertices, the same edges and the same rendering. *)
Theorem addEdge_calls_commute (g : DirectedGraph) (u v u' v' : ptr) :
  owns g u → owns g v → owns g u' → owns g v' →
  ∃ b1 g1 b2 g12 c1 h1 c2 h12,
    addEdge u v g = Some (b1, g1) ∧ addEdge u' v' g1 = Some (b2, g12) ∧
    addEdge u' v' g = Some (c1, h1) ∧ addEdge u v h1 = Some (c2, h12) ∧
    same_graph g12 h12 ∧ toString g12 = toString h12.
Proof.
  intros Hu Hv Hu' Hv'.
  assert (∀ g0 x y, owns g0 x → owns g0 y → ∃ b g1, addEdge x y g0 = Some (b, g1)) as Hret.
  { intros g0 x y Hx Hy. rewrite addEdge_defined by done. case_decide; eauto. }
  destruct (Hret g u v Hu Hv) as (b1 & g1 & H1).
  destruct (addEdge_keeps_vertices _ _ _ _ _ H1) as [Hh1 Hm1].
  destruct (Hret g1 u' v') as (b2 & g12 & H2); [unfold owns; by rewrite Hm1..|].
  destruct (addEdge_keeps_vertices _ _ _ _ _ H2) as [Hh2 Hm2].
  destruct (Hret g u' v' Hu' Hv') as (c1 & h1 & K1).
  destruct (addEdge_keeps_vertices _ _ _ _ _ K1) as [Hk1 Hn1].
  destruct (Hret h1 u v) as (c2 & h12 & K2); [unfold owns; by rewrite Hn1..|].
  destruct (addEdge_keeps_vertices _ _ _ _ _ K2) as [Hk2 Hn2].
  assert (same_graph g12 h12) as Hsame.
  { split_and!; try congruence.
    - rewrite (addEdge_counter _ _ _ _ _ K2), (addEdge_counter _ _ _ _ _ K1).
      by rewrite (addEdge_counter _ _ _ _ _ H2), (addEdge_counter _ _ _ _ _ H1).
    - intros w.
      rewrite (addEdge_successors _ _ _ _ _ K2), !(addEdge_successors _ _ _ _ _ K1).
      rewrite (addEdge_successors _ _ _ _ _ H2), !(addEdge_successors _ _ _ _ _ H1).
      repeat case_decide; simplify_eq; set_solver. }
  exists b1, g1, b2, g12, c1, h1, c2, h12.
  do 4 (split; [done|]). split; [done|]. symmetry. by apply toString_same_graph.
Qed.

(** The successor sets after [removeVertex], whether [u] was a vertex of
    the graph or not, as long as no edge points to a pointer that is none. *)
Lemma removed_successors g u w :
  successors (snd (removeVertex u g)) w
  = if decide (owns g u) then (if decide (w = u) then ∅ else successors g w ∖ {[u]})
    else successors g w.
Proof.
  case_decide as Hu.
  - by apply removeVertex_successors.
  - by rewrite removeVertex_unowned.
Qed.

Lemma removed_store g u :
  heap (snd (removeVertex u g))
  = match m_vertices g !! u with Some owned => delete owned (heap g) | None => heap g end ∧
  m_vertices (snd (removeVertex u g)) = delete u (m_vertices g) ∧
  m_vertexCounter (snd (removeVertex u g)) = m_vertexCounter g.
Proof.
  unfold removeVertex. destruct (m_vertices g !! u) eqn:Hu; simpl; [done|].
  split; [done|]. split; [|done]. by rewrite delete_id.
Qed.

(** X17: the order of two [removeVertex] calls does not matter either: both
    orders give the same answers and leave graphs with the same vertices and
    edges. *)
Theorem removeVertex_calls_commute (g : DirectedGraph) (u v : ptr) :
  u ≠ v →
  fst (removeVertex u g) = fst (removeVertex u (snd (removeVertex v g))) ∧
  fst (removeVertex v g) = fst (removeVertex v (snd (removeVertex u g))) ∧
  same_graph (snd (removeVertex v (snd (removeVertex u g))))
             (snd (removeVertex u (snd (removeVertex v g)))).
Proof.
  intros Hne.
  assert (∀ x y g0, x ≠ y →
            m_vertices (snd (removeVertex y g0)) !! x = m_vertices g0 !! x) as Hkeep.
  { intros x y g0 Hxy. unfold removeVertex. destruct (m_vertices g0 !! y); simpl; [|done].
    by rewrite lookup_delete_ne. }
  assert (∀ x g0, fst (removeVertex x g0) = bool_decide (owns g0 x)) as Hans.
  { intros x g0. destruct (decide (owns g0 x)) as [[owned Hx]|Hx].
    - rewrite (removeVertex_owned _ _ _ Hx). simpl. symmetry.
      apply bool_decide_eq_true_2. by exists owned.
    - rewrite removeVertex_unowned by done. simpl. symmetry.
      by apply bool_decide_eq_false_2. }
  assert (∀ x y g0, x ≠ y → owns (snd (removeVertex y g0)) x ↔ owns g0 x) as Howns.
  { intros x y g0 Hxy. unfold owns. by rewrite Hkeep. }
  split_and!.
  - rewrite !Hans. apply bool_decide_ext. symmetry. by apply Howns.
  - rewrite !Hans. apply bool_decide_ext. symmetry. by apply Howns.
  - destruct (removed_store g u) as (Hhu & Hmu & Hcu).
    destruct (removed_store g v) as (Hhv & Hmv & Hcv).
    destruct (removed_store (snd (removeVertex u g)) v) as (Hhuv & Hmuv & Hcuv).
    destruct (removed_store (snd (removeVertex v g)) u) as (Hhvu & Hmvu & Hcvu).
    split_and!.
    + rewrite Hhvu, Hhuv, !Hkeep, Hhu, Hhv by done.
      destruct (m_vertices g !! u), (m_vertices g !! v); try done.
      apply delete_delete.
    + congruence.
    + rewrite Hmvu, Hmuv, Hmu, Hmv. apply delete_delete.
    + intros w. rewrite !removed_successors.
      pose proof (Howns u v g Hne). pose proof (Howns v u g (not_eq_sym Hne)).
      repeat case_decide; simplify_eq; try tauto; set_solver.
Qed.

(** ** Sorting *)

Lemma StronglySorted_id_order h l :
  StronglySorted (id_order h) l → StronglySorted N.le (id_at h <$> l).
Proof.
  induction 1 as [|x l _ IH Hall]; [constructor|].
  rewrite fmap_cons. constructor; [done|].
  apply Forall_fmap. eapply Forall_impl; [exact Hall|].
  intros y Hy. by apply id_order_le.
Qed.

Lemma StronglySorted_le_NoDup (l : list N) :
  StronglySorted N.le l → NoDup l → StronglySorted N.lt l.
Proof.
  induction 1 as [|x l _ IH Hall]; [constructor|].
  rewrite NoDup_cons. intros [Hx Hnd]. constructor; [by apply IH|].
  rewrite Forall_forall in Hall. apply Forall_forall. intros y Hy.
  specialize (Hall y Hy). assert (x ≠ y) by (by intros ->). lia.
Qed.

(** X18: [toSortedVertices] returns exactly when every pointer of the range
    points to a vertex; the result holds the same pointers as the range,
    each as often, in ascending order of id, and in strictly ascending order
    when the ids of the range are distinct. *)
Theorem toSortedVertices_sorts_by_id (h : gmap ptr Vertex) (vs : list ptr) :
  (is_Some (toSortedVertices h vs) ↔ ∀ p, p ∈ vs → is_Some (h !! p)) ∧
  ∀ sorted, toSortedVertices h vs = Some sorted →
    sorted ≡ₚ vs ∧ StronglySorted N.le (id_at h <$> sorted) ∧
    (NoDup (id_at h <$> vs) → StronglySorted N.lt (id_at h <$> sorted)).
Proof.
  unfold toSortedVertices. split.
  - rewrite <- Forall_forall. case_decide as Hall.
    + split; [done|]. intros _. by eexists.
    + split; [by intros [? ?]|]. intros Hlive. by destruct Hall.
  - intros sorted Hsorted. case_decide; [|done]. injection Hsorted as <-.
    assert (Transitive (id_order h)) as Htrans.
    { intros x y z. rewrite !id_order_le. lia. }
    pose proof (id_order_total h) as Htotal.
    assert (StronglySorted N.le (id_at h <$> merge_sort (id_order h) vs)) as Hle.
    { apply StronglySorted_id_order. by apply StronglySorted_merge_sort. }
    split; [apply merge_sort_Permutation|]. split; [done|].
    intros Hnd. apply StronglySorted_le_NoDup; [done|].
    by rewrite merge_sort_Permutation.
Qed.
(** * Instances of the theorems *)

Lemma demo_graph_reachable : reachable demo_graph.
Proof. exists demo_ops. vm_compute. reflexivity. Defined.

Lemma demo_graph_reordered_reachable : reachable demo_graph_reordered.
Proof. exists demo_ops_reordered. vm_compute. reflexivity. Defined.

Lemma demo_graph_ids_unique : ids_unique demo_graph.
Proof. unfold ids_unique. apply (bool_decide_unpack _). vm_compute. exact I. Defined.

Lemma demo_graph_reordered_ids_unique : ids_unique demo_graph_reordered.
Proof. unfold ids_unique. apply (bool_decide_unpack _). vm_compute. exact I. Defined.

Lemma test_DirectedGraph_setup_passes_witness :
  NoDup [100; 50; 70; 10] ∧
  ∃ graph,
    test_DirectedGraph_setup 100 50 70 10
    = Some ([true; true; true; true; false], graph, expected) ∧
    id_at (heap graph) <$> [100; 50; 70; 10] = [0; 1; 2; 3].
Proof.
  assert (NoDup [100; 50; 70; 10]) as Hd.
  { apply (bool_decide_unpack _). vm_compute. exact I. }
  split; [exact Hd|]. exact (test_DirectedGraph_setup_passes 100 50 70 10 Hd).
Defined.

Lemma toString_sorted_deterministic_witness :
  reachable demo_graph ∧ reachable demo_graph_reordered ∧
  ids_unique demo_graph ∧ ids_unique demo_graph_reordered ∧
  vertex_ids demo_graph = vertex_ids demo_graph_reordered ∧
  edge_pairs demo_graph = edge_pairs demo_graph_reordered ∧
  toString demo_graph = Some expected ∧
  toString demo_graph_reordered = Some expected.
Proof.
  split; [exact demo_graph_reachable|].
  split; [exact demo_graph_reordered_reachable|].
  split; [exact demo_graph_ids_unique|].
  split; [exact demo_graph_reordered_ids_unique|].
  destruct (toString_sorted_deterministic demo_graph demo_graph_reordered
              demo_graph_reachable demo_graph_reordered_reachable)
    as [_ Hids].
  destruct (Hids demo_graph_ids_unique demo_graph_reordered_ids_unique)
    as [Hspec Hsame].
  assert (vertex_ids demo_graph = vertex_ids demo_graph_reordered) as HV.
  { vm_compute. reflexivity. }
  assert (edge_pairs demo_graph = edge_pairs demo_graph_reordered) as HE.
  { vm_compute. reflexivity. }
  split; [exact HV|]. split; [exact HE|].
  rewrite <- (Hsame HV HE). rewrite Hspec. split; vm_compute; reflexivity.
Defined.

Lemma removeVertex_cascade_witness :
  reachable demo_graph ∧ owns demo_graph 10 ∧ ¬ owns demo_graph 11 ∧
  (∃ g', removeVertex 10 demo_graph = (true, g') ∧
         (10 ∉ fst (getVertices g')) ∧ (10 ∉ getVertices_const g') ∧
         m_edges g' !! 10 = None ∧ ∀ w, ¬ has_edge g' w 10) ∧
  removeVertex 11 demo_graph = (false, demo_graph).
Proof.
  destruct (removeVertex_cascade demo_graph 10 demo_graph_reachable) as [Howned _].
  destruct (removeVertex_cascade demo_graph 11 demo_graph_reachable) as [_ Hunowned].
  assert (owns demo_graph 10) as Hu by (apply (bool_decide_unpack _); vm_compute; exact I).
  assert (¬ owns demo_graph 11) as Hn by (apply (bool_decide_unpack _); vm_compute; exact I).
  split; [exact demo_graph_reachable|]. split; [exact Hu|]. split; [exact Hn|].
  split; [|exact (Hunowned Hn)].
  destruct (Howned Hu) as (g' & Hrem & H1 & H2 & H3 & H4 & _).
  exists g'. repeat split; assumption.
Defined.

Lemma addEdge_idempotent_witness :
  owns demo_graph 50 ∧ owns demo_graph 70 ∧ ¬ has_edge demo_graph 50 70 ∧
  ∃ g', addEdge 50 70 demo_graph = Some (true, g') ∧ has_edge g' 50 70 ∧
        addEdge 50 70 g' = Some (false, g').
Proof.
  assert (owns demo_graph 50) as Hu by (apply (bool_decide_unpack _); vm_compute; exact I).
  assert (owns demo_graph 70) as Hv by (apply (bool_decide_unpack _); vm_compute; exact I).
  assert (¬ has_edge demo_graph 50 70) as He
    by (apply (bool_decide_unpack _); vm_compute; exact I).
  split; [exact Hu|]. split; [exact Hv|]. split; [exact He|].
  destruct (addEdge_idempotent demo_graph 50 70 Hu Hv) as (_ & Hnew & b & g1 & Hfirst & Hsecond).
  destruct (Hnew He) as (g' & Hadd & _ & _ & _ & Hedges).
  exists g'. split; [exact Hadd|]. split; [apply Hedges; right; split; reflexivity|].
  rewrite Hadd in Hfirst. injection Hfirst as _ <-. exact Hsecond.
Defined.

Lemma addVertex_ids_until_wrap_witness :
  N.of_nat (length (minted demo_trace DirectedGraph_new)) ≤ 2 ^ SIZE_BITS ∧
  minted demo_trace DirectedGraph_new = [0; 1; 2; 3; 4; 5] ∧
  NoDup (minted demo_trace DirectedGraph_new) ∧
  StronglySorted N.lt (minted demo_trace DirectedGraph_new).
Proof.
  assert (N.of_nat (length (minted demo_trace DirectedGraph_new)) ≤ 2 ^ SIZE_BITS) as Hlen.
  { vm_compute. intros Hgt. discriminate Hgt. }
  destruct (addVertex_ids_until_wrap demo_trace Hlen) as (Hids & Hnodup & Hsorted).
  split; [exact Hlen|]. split; [|split; assumption].
  vm_compute. reflexivity.
Defined.

Lemma removeEdge_missing_or_present_witness :
  (¬ (owns demo_graph 50 ∧ owns demo_graph 70 ∧ has_edge demo_graph 50 70)) ∧
  (∃ g', removeEdge 50 70 demo_graph = (false, g') ∧ same_graph demo_graph g' ∧
         toString g' = toString demo_graph) ∧
  (owns demo_graph 100 ∧ owns demo_graph 50 ∧ has_edge demo_graph 100 50) ∧
  (∃ g', removeEdge 100 50 demo_graph = (true, g') ∧ ¬ has_edge g' 100 50).
Proof.
  destruct (removeEdge_missing_or_present demo_graph 50 70) as [Hmissing _].
  destruct (removeEdge_missing_or_present demo_graph 100 50) as [_ Hpresent].
  assert (¬ (owns demo_graph 50 ∧ owns demo_graph 70 ∧ has_edge demo_graph 50 70)) as Hn
    by (apply (bool_decide_unpack _); vm_compute; exact I).
  assert (owns demo_graph 100) as Hu by (apply (bool_decide_unpack _); vm_compute; exact I).
  assert (owns demo_graph 50) as Hv by (apply (bool_decide_unpack _); vm_compute; exact I).
  assert (has_edge demo_graph 100 50) as He
    by (apply (bool_decide_unpack _); vm_compute; exact I).
  split; [exact Hn|]. split; [exact (Hmissing Hn)|]. split; [repeat split; assumption|].
  destruct (Hpresent Hu Hv He) as (g' & Hrem & Hgone & _).
  exists g'. split; assumption.
Defined.

Lemma adjacency_invariant_preserved_witness :
  edges_closed demo_graph ∧
  exec (OpGetSuccessors 99) demo_graph = Some (snd (getSuccessors 99 demo_graph)) ∧
  edges_closed (snd (getSuccessors 99 demo_graph)).
Proof.
  assert (edges_closed demo_graph) as Hinv
    by (apply (bool_decide_unpack _); vm_compute; exact I).
  assert (exec (OpGetSuccessors 99) demo_graph = Some (snd (getSuccessors 99 demo_graph)))
    as Hexec by reflexivity.
  split; [exact Hinv|]. split; [exact Hexec|].
  exact (adjacency_invariant_preserved _ _ _ Hinv Hexec).
Defined.

Lemma getSuccessors_exact_or_empty_witness :
  reachable demo_graph ∧
  (∀ v, v ∈ fst (getSuccessors 100 demo_graph) ↔ has_edge demo_graph 100 v) ∧
  fst (getSuccessors 99 demo_graph) = [] ∧
  getSuccessors_const 99 demo_graph = [].
Proof.
  destruct (getSuccessors_exact_or_empty demo_graph 100 demo_graph_reachable)
    as (Hexact & _).
  destruct (getSuccessors_exact_or_empty demo_graph 99 demo_graph_reachable)
    as (_ & _ & _ & _ & _ & Hunowned & _).
  assert (¬ owns demo_graph 99) as Hn by (apply (bool_decide_unpack _); vm_compute; exact I).
  split; [exact demo_graph_reachable|]. split; [exact Hexact|]. exact (Hunowned Hn).
Defined.

Lemma overloads_agree_witness :
  reachable demo_graph ∧
  fst (getVertices demo_graph) = getVertices_const demo_graph ∧
  fst (getSuccessors 100 demo_graph) = getSuccessors_const 100 demo_graph.
Proof.
  destruct (overloads_agree demo_graph 100 demo_graph_reachable) as (Hv & Hs & _).
  split; [exact demo_graph_reachable|]. split; assumption.
Defined.

Lemma queries_leave_graph_witness :
  is_query (OpGetSuccessors 99) = true ∧
  same_graph demo_graph (snd (getSuccessors 99 demo_graph)) ∧
  toString (snd (getSuccessors 99 demo_graph)) = toString demo_graph.
Proof.
  assert (is_query (OpGetSuccessors 99) = true) as Hq by reflexivity.
  destruct (queries_leave_graph (OpGetSuccessors 99) demo_graph Hq) as [Hframe _].
  split; [exact Hq|]. exact (Hframe _ eq_refl).
Defined.

(** ** Instances of the further properties *)

Lemma owned_vertices_are_live_witness :
  reachable demo_graph ∧
  (owns demo_graph 100 ↔ is_Some (heap demo_graph !! 100)) ∧
  ∀ owned, m_vertices demo_graph !! 100 = Some owned → owned = 100.
Proof.
  split; [exact demo_graph_reachable|].
  exact (owned_vertices_are_live demo_graph 100 demo_graph_reachable).
Defined.

Lemma addVertex_adds_isolated_vertex_witness :
  reachable demo_graph ∧ heap demo_graph !! 7 = None ∧
  fst (addVertex 7 42 demo_graph) = 7 ∧
  heap (snd (addVertex 7 42 demo_graph)) !! 7 = Some (mkVertex 4 42) ∧
  successors (snd (addVertex 7 42 demo_graph)) 7 = ∅.
Proof.
  assert (heap demo_graph !! 7 = None) as Hfree by (vm_compute; reflexivity).
  destruct (addVertex_adds_isolated_vertex demo_graph 7 42 demo_graph_reachable Hfree)
    as (Hret & _ & Hnew & _ & _ & _ & Hout & _).
  split; [exact demo_graph_reachable|]. split; [exact Hfree|].
  split; [exact Hret|]. split; [exact Hnew|exact Hout].
Defined.


Lemma addEdge_removeEdge_roundtrip_witness :
  owns demo_graph 50 ∧ owns demo_graph 70 ∧ ¬ has_edge demo_graph 50 70 ∧
  ∃ g1 g2, addEdge 50 70 demo_graph = Some (true, g1) ∧
           removeEdge 50 70 g1 = (true, g2) ∧ same_graph demo_graph g2 ∧
           toString g2 = toString demo_graph.
Proof.
  assert (owns demo_graph 50) as Hu by (apply (bool_decide_unpack _); vm_compute; exact I).
  assert (owns demo_graph 70) as Hv by (apply (bool_decide_unpack _); vm_compute; exact I).
  assert (¬ has_edge demo_graph 50 70) as He
    by (apply (bool_decide_unpack _); vm_compute; exact I).
  destruct (addEdge_removeEdge_roundtrip demo_graph 50 70 Hu Hv) as [Hnew _].
  split; [exact Hu|]. split; [exact Hv|]. split; [exact He|]. exact (Hnew He).
Defined.

Lemma successors_are_vertices_witness :
  reachable demo_graph ∧
  (50 ∈ fst (getSuccessors 100 demo_graph) ∨ 50 ∈ getSuccessors_const 100 demo_graph) ∧
  100 ∈ getVertices_const demo_graph ∧ 50 ∈ getVertices_const demo_graph.
Proof.
  assert (50 ∈ getSuccessors_const 100 demo_graph) as Hin
    by (apply (bool_decide_unpack _); vm_compute; exact I).
  destruct (successors_are_vertices demo_graph 100 50 demo_graph_reachable (or_intror Hin))
    as (Hu & Hv & _).
  split; [exact demo_graph_reachable|]. split; [right; exact Hin|]. split; assumption.
Defined.



Lemma setData_changes_payload_only_witness :
  heap demo_graph !! 50 = Some (mkVertex 1 1) ∧
  ∃ g', exec (OpSetData 50 9) demo_graph = Some g' ∧
        Vertex_getData <$> heap g' !! 50 = Some 9%Z ∧
        Vertex_getID <$> heap g' !! 50 = Some 1 ∧
        toString g' = toString demo_graph.
Proof.
  assert (heap demo_graph !! 50 = Some (mkVertex 1 1)) as Hp by (vm_compute; reflexivity).
  destruct (setData_changes_payload_only demo_graph 50 9 _ Hp)
    as (g' & Hexec & Hdata & Hid & _ & _ & _ & Hs).
  split; [exact Hp|]. exists g'. repeat split; assumption.
Defined.

Lemma equal_vertices_are_one_vertex_witness :
  reachable demo_graph ∧ ids_unique demo_graph ∧
  heap demo_graph !! 50 = Some (mkVertex 1 1) ∧
  heap demo_graph !! 70 = Some (mkVertex 2 2) ∧
  (Vertex_eqb (mkVertex 1 1) (mkVertex 2 2) = true ↔ (50 : ptr) = 70).
Proof.
  assert (heap demo_graph !! 50 = Some (mkVertex 1 1)) as Hp by (vm_compute; reflexivity).
  assert (heap demo_graph !! 70 = Some (mkVertex 2 2)) as Hq by (vm_compute; reflexivity).
  split; [exact demo_graph_reachable|]. split; [exact demo_graph_ids_unique|].
  split; [exact Hp|]. split; [exact Hq|].
  exact (equal_vertices_are_one_vertex demo_graph 50 70 _ _
           demo_graph_reachable demo_graph_ids_unique Hp Hq).
Defined.


Lemma toString_tells_the_graph_witness :
  reachable demo_graph ∧ ids_unique demo_graph ∧
  reachable demo_graph_reordered ∧ ids_unique demo_graph_reordered ∧
  toString demo_graph = toString demo_graph_reordered ∧
  vertex_ids demo_graph = vertex_ids demo_graph_reordered ∧
  edge_pairs demo_graph = edge_pairs demo_graph_reordered.
Proof.
  assert (toString demo_graph = toString demo_graph_reordered) as Heq
    by (vm_compute; reflexivity).
  split; [exact demo_graph_reachable|]. split; [exact demo_graph_ids_unique|].
  split; [exact demo_graph_reordered_reachable|].
  split; [exact demo_graph_reordered_ids_unique|]. split; [exact Heq|].
  exact (toString_tells_the_graph demo_graph demo_graph_reordered
           demo_graph_reachable demo_graph_ids_unique
           demo_graph_reordered_reachable demo_graph_reordered_ids_unique Heq).
Defined.

Lemma toString_prints_each_once_witness :
  reachable demo_graph ∧ ids_unique demo_graph ∧
  NoDup (printed_pairs (vertex_ids demo_graph) (edge_pairs demo_graph)) ∧
  ∀ a b, (a, b) ∈ printed_pairs (vertex_ids demo_graph) (edge_pairs demo_graph)
         ↔ (a, b) ∈ edge_pairs demo_graph.
Proof.
  destruct (toString_prints_each_once demo_graph demo_graph_reachable demo_graph_ids_unique)
    as (_ & _ & Hnd & _ & Hin).
  split; [exact demo_graph_reachable|]. split; [exact demo_graph_ids_unique|].
  split; [exact Hnd|exact Hin].
Defined.

Lemma addEdge_calls_commute_witness :
  owns demo_graph 50 ∧ owns demo_graph 70 ∧ owns demo_graph 10 ∧ owns demo_graph 100 ∧
  ∃ b1 g1 b2 g12 c1 h1 c2 h12,
    addEdge 50 70 demo_graph = Some (b1, g1) ∧ addEdge 10 100 g1 = Some (b2, g12) ∧
    addEdge 10 100 demo_graph = Some (c1, h1) ∧ addEdge 50 70 h1 = Some (c2, h12) ∧
    same_graph g12 h12 ∧ toString g12 = toString h12.
Proof.
  assert (owns demo_graph 50) as H1 by (apply (bool_decide_unpack _); vm_compute; exact I).
  assert (owns demo_graph 70) as H2 by (apply (bool_decide_unpack _); vm_compute; exact I).
  assert (owns demo_graph 10) as H3 by (apply (bool_decide_unpack _); vm_compute; exact I).
  assert (owns demo_graph 100) as H4 by (apply (bool_decide_unpack _); vm_compute; exact I).
  split; [exact H1|]. split; [exact H2|]. split; [exact H3|]. split; [exact H4|].
  exact (addEdge_calls_commute demo_graph 50 70 10 100 H1 H2 H3 H4).
Defined.

Lemma removeVertex_calls_commute_witness :
  (100 : ptr) ≠ 50 ∧
  same_graph (snd (removeVertex 50 (snd (removeVertex 100 demo_graph))))
             (snd (removeVertex 100 (snd (removeVertex 50 demo_graph)))).
Proof.
  assert ((100 : ptr) ≠ 50) as Hne by (intros Heq; discriminate Heq).
  destruct (removeVertex_calls_commute demo_graph 100 50 Hne) as (_ & _ & Hsame).
  split; [exact Hne|exact Hsame].
Defined.

(** * Remarks *)

(** [getSuccessors] on a pointer that is no vertex of the graph leaves an
    entry with an empty set under it: the adjacency map is not what it was,
    and the reading of the invariant that makes every key a vertex of the
    graph does not survive the call. *)
Example getSuccessors_leaves_entry :
  m_edges demo_graph !! 99 = None ∧
  m_edges (snd (getSuccessors 99 demo_graph)) !! 99 = Some ∅ ∧
  edges_closed_strict demo_graph ∧
  ¬ edges_closed_strict (snd (getSuccessors 99 demo_graph)).
Proof.
  split; [vm_compute; reflexivity|]. split; [vm_compute; reflexivity|].
  split; apply (bool_decide_unpack _); vm_compute; exact I.
Qed.

(** [removeEdge] on a missing edge between two vertices answers [false] and
    leaves an empty entry under [u] when there was none. *)
Example removeEdge_leaves_entry :
  m_edges demo_graph !! 50 = None ∧
  removeEdge 50 70 demo_graph = (false, snd (removeEdge 50 70 demo_graph)) ∧
  m_edges (snd (removeEdge 50 70 demo_graph)) !! 50 = Some ∅.
Proof. repeat split; vm_compute; reflexivity. Qed.
